(** * Express performance benchmark suite (benchmark.js)

    A shallow embedding of the load generator: [makeRequest] (one timed
    HTTP GET wrapped in a promise), [benchmarkRoute] (sequential warmup,
    barrier-synchronised batches, latency statistics) and [runBenchmarks]
    (server lifecycle, the six scenarios, the summary table), together with
    the process entry point.

    Conventions of the embedding.
    - JavaScript numbers that hold durations are exact rationals ([Qc],
      milliseconds); the special values a division can produce are kept
      ([PosInf], [NegInf], [NaN]).  Array lengths and counters are [nat].
    - [undefined] read from an array is [None].
    - The network is an oracle: for the n-th request ever issued it gives
      the handlers of that request that fire, in firing order.
    - Asynchronous code is written in a small monad over a [world] that
      carries the clock, the number of requests issued, the server state
      and the observable trace; a computation returns, throws, or hangs
      (an awaited promise that never settles). *)

From stdpp Require Import base list numbers sorting strings.
From Stdlib Require Import QArith Qcanon Qround.

Local Open Scope Z_scope.
Local Open Scope nat_scope.

(** ** JavaScript values *)

Inductive jsnum : Type :=
  | Num (q : Qc)
  | PosInf
  | NegInf
  | NaN.

(** [a / b] on finite operands, with the IEEE results for a zero divisor. *)
Definition js_div (a b : Qc) : jsnum :=
  if decide (b = 0%Qc) then
    if decide (a = 0%Qc) then NaN
    else if decide (0 < a)%Qc then PosInf else NegInf
  else Num (a / b)%Qc.

(** [x * k] for a finite [k]. *)
Definition js_mul (x : jsnum) (k : Qc) : jsnum :=
  match x with
  | Num q => Num (q * k)%Qc
  | NaN => NaN
  | PosInf =>
      if decide (k = 0%Qc) then NaN
      else if decide (0 < k)%Qc then PosInf else NegInf
  | NegInf =>
      if decide (k = 0%Qc) then NaN
      else if decide (0 < k)%Qc then NegInf else PosInf
  end.

(** [arr[i]]: [undefined] (here [None]) outside [0 .. length-1]. *)
Definition js_index {A} (arr : list A) (i : Z) : option A :=
  if decide (0 ≤ i)%Z then arr !! Z.to_nat i else None.

Definition of_nat (n : nat) : Qc := Q2Qc (inject_Z (Z.of_nat n)).

(** [Math.floor(n * p)] for an array length [n] and a decimal literal [p]. *)
Definition floor_mul (n : nat) (p : Q) : Z :=
  Qfloor (inject_Z (Z.of_nat n) * p).

(** Values thrown or used as rejection reasons. *)
Inductive js_error : Type :=
  | RequestTimeout                (* new Error('Request timeout') *)
  | TransportError (code : string) (* the err of req.on('error') *)
  | TypeError (msg : string).

(** ** Benchmark configuration *)

Record config : Type := {
  WARMUP_REQUESTS : nat;
  BENCHMARK_REQUESTS : nat;
  CONCURRENT_REQUESTS : nat
}.

(** The constants of the file. *)
Definition shipped : config :=
  {| WARMUP_REQUESTS := 1000;
     BENCHMARK_REQUESTS := 100 * 100;
     CONCURRENT_REQUESTS := 100 |}.

(** ** Latency statistics (benchmarkRoute, "Calculate statistics") *)

Module Latency.
Record stats : Type := {
  avg : jsnum;
  min : option Qc;
  max : option Qc;
  p50 : option Qc;
  p95 : option Qc;
  p99 : option Qc
}.
End Latency.

(** [times.sort((a, b) => a - b)] *)
Definition sort_times (times : list Qc) : list Qc := merge_sort Qcle times.

(** [times.reduce((a, b) => a + b, 0)] *)
Definition sum_times (times : list Qc) : Qc := foldl Qcplus 0%Qc times.

(** Lines 157-162, on the sorted array. *)
Definition calculate_statistics (times : list Qc) : Latency.stats :=
  let n := length times in
  {| Latency.avg := js_div (sum_times times) (of_nat n);
     Latency.min := js_index times 0;
     Latency.max := js_index times (Z.of_nat n - 1);
     Latency.p50 := js_index times (floor_mul n 0.5);
     Latency.p95 := js_index times (floor_mul n 0.95);
     Latency.p99 := js_index times (floor_mul n 0.99) |}.

(** ** The world: clock, requests issued, server socket, observable trace *)

Inductive server_state : Type :=
  | NotListening
  | Listening (port : nat)
  | Closed.

(** Lines written by [console.log] / [console.error].  Formatting with
    [toFixed(2)], [padEnd] and [padStart] is not modelled: a line carries
    the values it prints.  Rules of [=] and [-] and the bullet lists of
    fixed text are left out; each block of fixed text is one [Text]. *)
Inductive line : Type :=
  | Text (s : string)
  | ConfigLines (cfg : config)
  | ListeningOn (port : nat)
  | Benchmarking (name : string)
  | WarmupLine (n : nat)
  | RunningLine (count : nat)
  | CompletedLine (count : nat) (totalTime : Qc)
  | RequestsPerSec (reqPerSec : jsnum)
  | LatencyLine (avg : jsnum) (min max : Qc)
  | PercentilesLine (p50 p95 p99 : Qc)
  | ErrorsLine (errors : nat)
  | SummaryHeader
  | SummaryRow (name : string) (reqPerSec avg : jsnum)
  | BenchmarkError (err : js_error)
  | FatalError (err : js_error).

Inductive event : Type :=
  | Dispatch (id : nat) (port : nat) (path : string) (* http.get issued *)
  | Settle (id : nat) (ok : bool)   (* the promise of request [id] settles *)
  | Stdout (l : line)               (* console.log *)
  | Stderr (l : line)               (* console.error *)
  | Barrier                         (* await Promise.all(promises) resumes *)
  | ServerListen (port : nat)
  | ServerClose
  | ProcessExit (code : nat).       (* process.exit(code) *)

Record world : Type := {
  now : Qc;               (* performance.now() *)
  issued : nat;           (* requests issued so far *)
  server : server_state
}.

Definition set_now (t : Qc) (w : world) : world :=
  {| now := t; issued := issued w; server := server w |}.
Definition set_issued (n : nat) (w : world) : world :=
  {| now := now w; issued := n; server := server w |}.
Definition set_server (s : server_state) (w : world) : world :=
  {| now := now w; issued := issued w; server := s |}.

(** ** The monad of asynchronous computations *)

Inductive outcome (A : Type) : Type :=
  | Ret (a : A)             (* completes normally *)
  | Throw (e : js_error)    (* throws / the async function rejects *)
  | Hang.                   (* waits forever on an unsettled promise *)
Arguments Ret {A} a.
Arguments Throw {A} e.
Arguments Hang {A}.

Definition M (A : Type) : Type := world → outcome A * world * list event.

Definition ret {A} (a : A) : M A := λ w, (Ret a, w, []).
Definition throw {A} (e : js_error) : M A := λ w, (Throw e, w, []).
Definition hang {A} : M A := λ w, (Hang, w, []).

Definition bind {A B} (m : M A) (k : A → M B) : M B := λ w,
  match m w with
  | (Ret a, w1, t1) => let '(o, w2, t2) := k a w1 in (o, w2, t1 ++ t2)
  | (Throw e, w1, t1) => (Throw e, w1, t1)
  | (Hang, w1, t1) => (Hang, w1, t1)
  end.

(** stdpp's monad notations: [x ← m; k] and [m;; k]. *)
#[global] Instance M_ret : MRet M := @ret.
#[global] Instance M_bind : MBind M := λ A B k m, bind m k.

(** [try { m } catch (err) { h err }] *)
Definition try_catch {A} (m : M A) (h : js_error → M A) : M A := λ w,
  match m w with
  | (Throw e, w1, t1) => let '(o, w2, t2) := h e w1 in (o, w2, t1 ++ t2)
  | r => r
  end.

(** [try { m } finally { f }]: [f] runs when [m] returns or throws; the
    completion of [m] is kept unless [f] itself does not return. *)
Definition try_finally {A} (m : M A) (f : M unit) : M A := λ w,
  match m w with
  | (Hang, w1, t1) => (Hang, w1, t1)
  | (o, w1, t1) =>
      match f w1 with
      | (Ret _, w2, t2) => (o, w2, t1 ++ t2)
      | (Throw e, w2, t2) => (Throw e, w2, t1 ++ t2)
      | (Hang, w2, t2) => (Hang, w2, t1 ++ t2)
      end
  end.

Definition emit (e : event) : M unit := λ w, (Ret tt, w, [e]).
Definition console_log (l : line) : M unit := emit (Stdout l).
Definition console_error (l : line) : M unit := emit (Stderr l).
Definition performance_now : M Qc := λ w, (Ret (now w), w, []).

(** [for (let i = from; i < from + n; i++) s = body i s] *)
Fixpoint for_loop {St} (from n : nat) (body : nat → St → M St) (s : St)
    : M St :=
  match n with
  | 0 => ret s
  | S n' => s' ← body from s; for_loop (S from) n' body s'
  end.

(** [arr.forEach(f)] *)
Fixpoint for_each {A} (arr : list A) (f : A → M unit) : M unit :=
  match arr with
  | [] => ret tt
  | x :: arr' => f x;; for_each arr' f
  end.

(** ** makeRequest *)

(** The three callbacks [makeRequest] installs. *)
Inductive handler : Type :=
  | ResEnd (statusCode : Z)   (* res.on('end', ...) *)
  | ReqError (code : string)  (* req.on('error', ...) *)
  | ReqTimeout.               (* req.setTimeout(5000, ...) *)

(** A callback firing [at_ms] milliseconds after the request started. *)
Record firing : Type := { at_ms : Qc; which : handler }.

(** What the network does to one request: the callbacks that fire, in
    order.  The empty list is a request none of whose callbacks ever fires. *)
Definition fate : Type := list firing.

(** The fate of the n-th request issued since the process started. *)
Definition network : Type := nat → fate.

Record response : Type := { time : Qc; statusCode : Z }.

Inductive promise : Type :=
  | Pending
  | Fulfilled (r : response)
  | Rejected (e : js_error).

(** [resolve] and [reject] of [new Promise]: only a pending promise settles. *)
Definition resolve (r : response) (p : promise) : promise :=
  match p with Pending => Fulfilled r | _ => p end.
Definition reject (e : js_error) (p : promise) : promise :=
  match p with Pending => Rejected e | _ => p end.

(** The body of each callback. *)
Definition fire (f : firing) (p : promise) : promise :=
  match which f with
  | ResEnd sc => resolve {| time := at_ms f; statusCode := sc |} p
  | ReqError c => reject (TransportError c) p
  | ReqTimeout => reject RequestTimeout p   (* after req.destroy() *)
  end.

(** The promise returned by [makeRequest] once every callback has fired. *)
Definition settled (fa : fate) : promise := foldl (λ p f, fire f p) Pending fa.

Definition fulfilled (p : promise) : bool :=
  match p with Fulfilled _ => true | _ => false end.

(** A request in flight: its sequence number and its [start] time. *)
Record request : Type := { id : nat; start : Qc }.

Definition makeRequest (port : nat) (path : string) : M request := λ w,
  (Ret {| id := issued w; start := now w |},
   set_issued (S (issued w)) w,
   [Dispatch (issued w) port path]).

(** ** benchmarkRoute *)

(** The variables [times] and [errors] of one [benchmarkRoute] call. *)
Record tally : Type := { times : list Qc; errors : nat }.

(** A measured request is [makeRequest(port, path).then(result =>
    times.push(result.time)).catch(err => errors++)].  The reactions run
    when the promise leaves [Pending]; a callback that fires on a settled
    promise changes nothing. *)
Definition deliver (st : promise * tally) (f : firing) : promise * tally :=
  let '(p, t) := st in
  let p' := fire f p in
  match p, p' with
  | Pending, Fulfilled r =>
      (p', {| times := times t ++ [time r]; errors := errors t |})
  | Pending, Rejected _ =>
      (p', {| times := times t; errors := S (errors t) |})
  | _, _ => (p', t)
  end.

(** The variables after every callback of one measured request has fired. *)
Definition contribute (fa : fate) (t : tally) : tally :=
  (foldl deliver (Pending, t) fa).2.

(** [Math.ceil(count / batchSize)] as a loop bound. *)
Inductive bound : Type :=
  | Finite (n : nat)
  | Unbounded        (* Infinity *)
  | NotANumber.      (* NaN: [batch < NaN] is false *)

Definition ceil_div (count batchSize : nat) : bound :=
  if decide (batchSize = 0) then
    if decide (count = 0) then NotANumber else Unbounded
  else
    Finite (Z.to_nat
      (Qceiling (inject_Z (Z.of_nat count) / inject_Z (Z.of_nat batchSize)))).

(** The object returned by [benchmarkRoute]. *)
Module Result.
Record t : Type := {
  name : string;
  count : nat;
  totalTime : Qc;
  reqPerSec : jsnum;
  latency : Latency.stats;
  errors : nat
}.
End Result.

(** [x.toFixed(2)] on an array element: a [TypeError] on [undefined]. *)
Definition toFixed (x : option Qc) : M Qc :=
  match x with
  | Some q => ret q
  | None =>
      throw (TypeError "Cannot read properties of undefined (reading 'toFixed')")
  end.

Section Benchmark.
Context (cfg : config) (net : network).

(** The time at which the first callback of a request fires. *)
Definition settle_time (r : request) : Qc :=
  match net (id r) with
  | f :: _ => (start r + at_ms f)%Qc
  | [] => start r
  end.

Definition settles (r : request) : Prop := net (id r) ≠ [].

#[global] Instance settles_dec r : Decision (settles r).
Proof.
  unfold settles. destruct (net (id r)); [right | left]; congruence.
Defined.

(** [await makeRequest(port, path)]: resumes when the promise settles,
    returning the response or throwing the rejection reason. *)
Definition await (r : request) : M response := λ w,
  match settled (net (id r)) with
  | Pending => (Hang, w, [])
  | Fulfilled res => (Ret res, set_now (settle_time r) w, [Settle (id r) true])
  | Rejected e => (Throw e, set_now (settle_time r) w, [Settle (id r) false])
  end.

(** Lines 117-123. *)
Definition warmup (port : nat) (path : string) : M unit :=
  for_loop 0 (WARMUP_REQUESTS cfg) (λ i _,
    try_catch
      (r ← makeRequest port path; _ ← await r; mret tt)
      (λ err, mret tt) (* Ignore warmup errors *)) tt.

(** Lines 137-147: the promises of one batch are created. *)
Definition launch (port : nat) (path : string) (batchCount : nat)
    : M (list request) :=
  for_loop 0 batchCount (λ i promises,
    r ← makeRequest port path; mret (promises ++ [r])) [].

(** One promise of the batch settles and its reaction runs. *)
Definition react (r : request) (t : tally) : M tally := λ w,
  (Ret (contribute (net (id r)) t),
   set_now (settle_time r) w,
   [Settle (id r) (fulfilled (settled (net (id r))))]).

Definition earlier (r1 r2 : request) : Prop :=
  (settle_time r1 ≤ settle_time r2)%Qc.

#[global] Instance earlier_dec : RelDecision earlier.
Proof. intros r1 r2. unfold earlier. apply _. Defined.

Fixpoint react_all (rs : list request) (t : tally) : M tally :=
  match rs with
  | [] => mret t
  | r :: rs' => t' ← react r t; react_all rs' t'
  end.

(** [await Promise.all(promises)]: the promises settle in the order of
    their first callback; the barrier is passed once all have settled. *)
Definition await_all (promises : list request) (t : tally) : M tally :=
  t' ← react_all (merge_sort earlier (filter settles promises)) t;
  if decide (Forall settles promises) then emit Barrier;; mret t' else hang.

(** Lines 134-149: the body of the batch loop. *)
Definition run_batch (port : nat) (path : string) (count : nat)
    (batch : nat) (t : tally) : M tally :=
  let batchSize := CONCURRENT_REQUESTS cfg in
  let batchCount := Nat.min batchSize (count - batch * batchSize) in
  promises ← launch port path batchCount;
  await_all promises t.

(** Lines 130-150. *)
Definition run_batches (port : nat) (path : string) (count : nat)
    (t : tally) : M tally :=
  let batchSize := CONCURRENT_REQUESTS cfg in
  match ceil_div count batchSize with
  | Finite batches => for_loop 0 batches (run_batch port path count) t
  | Unbounded => hang  (* [batch < Infinity]: empty batches for ever *)
  | NotANumber => mret t
  end.

(** Lines 110-153: everything up to the statistics. *)
Definition measure (port : nat) (path name : string) (count : nat)
    : M (tally * Qc) :=
  console_log (Benchmarking name);;
  console_log (WarmupLine (WARMUP_REQUESTS cfg));;
  warmup port path;;
  console_log (RunningLine count);;
  startTime ← performance_now;
  t ← run_batches port path count {| times := []; errors := 0 |};
  endTime ← performance_now;
  mret (t, (endTime - startTime)%Qc).

(** Lines 156-178. *)
Definition report (name : string) (count : nat) (m : tally * Qc)
    : M Result.t :=
  let '(t, totalTime) := m in
  let times := sort_times (times t) in
  let stats := calculate_statistics times in
  let reqPerSec := js_mul (js_div (of_nat count) totalTime) (of_nat 1000) in
  console_log (CompletedLine count totalTime);;
  console_log (RequestsPerSec reqPerSec);;
  min ← toFixed (Latency.min stats);
  max ← toFixed (Latency.max stats);
  console_log (LatencyLine (Latency.avg stats) min max);;
  p50 ← toFixed (Latency.p50 stats);
  p95 ← toFixed (Latency.p95 stats);
  p99 ← toFixed (Latency.p99 stats);
  console_log (PercentilesLine p50 p95 p99);;
  console_log (ErrorsLine (errors t));;
  mret {| Result.name := name; Result.count := count;
          Result.totalTime := totalTime; Result.reqPerSec := reqPerSec;
          Result.latency := stats; Result.errors := errors t |}.

Definition benchmarkRoute (port : nat) (path name : string) (count : nat)
    : M Result.t :=
  m ← measure port path name count;
  report name count m.
End Benchmark.

(** ** runBenchmarks and the entry point *)

Section Run.
Context (cfg : config) (net : network).
(** The port the operating system assigns to [app.listen(0)], or [None]
    when the server cannot bind. *)
Context (bound_port : option nat).

(** [app.listen(0)].  (A failed bind also emits an [error] event on the
    server, which has no listener; the process ends with status 1 either
    way.) *)
Definition listen : M unit := λ w,
  match bound_port with
  | Some p => (Ret tt, set_server (Listening p) w, [ServerListen p])
  | None => (Ret tt, w, [])
  end.

(** [server.address().port]: [address()] is [null] unless listening. *)
Definition address_port : M nat := λ w,
  match server w with
  | Listening p => (Ret p, w, [])
  | _ => (Throw (TypeError "Cannot read properties of null (reading 'port')"),
          w, [])
  end.

(** [server.close()] *)
Definition server_close : M unit := λ w,
  (Ret tt,
   set_server (match server w with Listening _ => Closed | s => s end) w,
   [ServerClose]).

(** Lines 226-237. *)
Definition print_summary (benchmarkResults : list Result.t) : M unit :=
  console_log (Text "BENCHMARK SUMMARY");;
  console_log SummaryHeader;;
  for_each benchmarkResults (λ result,
    console_log (SummaryRow (Result.name result) (Result.reqPerSec result)
                   (Latency.avg (Result.latency result)))).

(** Lines 239-254. *)
Definition print_impact : M unit :=
  console_log (Text "OPTIMIZATION IMPACT");;
  console_log (Text "Optimizations Applied:");;
  console_log (Text "Expected Performance Gains:").

(** Lines 201-223: the body of the [try] up to the summary. *)
Definition run_scenarios (port : nat) : M (list Result.t) :=
  let run := benchmarkRoute cfg net port in
  let n := BENCHMARK_REQUESTS cfg in
  let benchmarkResults := [] in
  r ← run "/simple" "Simple Route" n;
  let benchmarkResults := benchmarkResults ++ [r] in
  r ← run "/json" "JSON Route (Header Cache)" n;
  let benchmarkResults := benchmarkResults ++ [r] in
  r ← run "/users/123" "Parameterized Route" n;
  let benchmarkResults := benchmarkResults ++ [r] in
  r ← run "/search?q=test&limit=10&offset=0" "Query String Route (LRU Cache)" n;
  let benchmarkResults := benchmarkResults ++ [r] in
  r ← run "/middleware" "Middleware Chain (5 middleware)" n;
  let benchmarkResults := benchmarkResults ++ [r] in
  r ← run "/static" "Static Route (Fast Path)" n;
  let benchmarkResults := benchmarkResults ++ [r] in
  mret benchmarkResults.

Definition runBenchmarks : M unit :=
  console_log (Text "Express Performance Benchmark Suite");;
  console_log (ConfigLines cfg);;
  listen;;
  port ← address_port;
  console_log (ListeningOn port);;
  try_finally
    (try_catch
       (benchmarkResults ← run_scenarios port;
        print_summary benchmarkResults;;
        print_impact)
       (λ err, console_error (BenchmarkError err)))
    (server_close;;
     console_log (Text "Benchmark complete!")).

(** How the process ends. *)
Inductive exit_status : Type :=
  | Exited (code : nat)
  | NeverExits.

(** Lines 267-272, run as a script: [runBenchmarks().catch(err => {
    console.error('Fatal error:', err); process.exit(1) })].  When the
    promise is fulfilled nothing is left to run and the process ends with
    status 0. *)
Definition main (w : world) : exit_status * world * list event :=
  match runBenchmarks w with
  | (Ret _, w1, t) => (Exited 0, w1, t)
  | (Throw e, w1, t) =>
      (Exited 1, w1, t ++ [Stderr (FatalError e); ProcessExit 1])
  | (Hang, w1, t) => (NeverExits, w1, t)
  end.
End Run.

(** The state of a fresh process. *)
Definition boot : world := {| now := 0%Qc; issued := 0; server := NotListening |}.

(** * Vocabulary of the properties *)

(** The number of requests a tally accounts for. *)
Definition accounted (t : tally) : nat := length (times t) + errors t.


(** The requests created by a batch of [n] dispatches from world [w]. *)
Definition batch_requests (w : world) (n : nat) : list request :=
  (λ i, {| id := i; start := now w |}) <$> seq (issued w) n.

(** The trace of their dispatch. *)
Definition dispatch_events (port : nat) (path : string) (w : world) (n : nat)
    : list event :=
  (λ i, Dispatch i port path) <$> seq (issued w) n.

(** Tally, clock and trace once the promises [rs] have settled in order. *)
Definition tally_after (net : network) (rs : list request) (t : tally) : tally :=
  foldl (λ t r, contribute (net (id r)) t) t rs.
Definition clock_after (net : network) (rs : list request) (w : world) : world :=
  foldl (λ w r, set_now (settle_time net r) w) w rs.
Definition settle_events (net : network) (rs : list request) : list event :=
  (λ r, Settle (id r) (fulfilled (settled (net (id r))))) <$> rs.

(** The order in which the promises of a batch settle. *)
Definition settling_order (net : network) (promises : list request)
    : list request :=
  merge_sort (earlier net) (filter (settles net) promises).

(** A small configuration and a network used to run the model: requests
    with an even sequence number are answered, the others time out and then
    report the destroyed socket. *)
Definition demo_cfg : config :=
  {| WARMUP_REQUESTS := 2; BENCHMARK_REQUESTS := 5; CONCURRENT_REQUESTS := 2 |}.

Definition answered (ms : nat) : fate :=
  [ {| at_ms := of_nat ms; which := ResEnd 200 |} ].

Definition timed_out : fate :=
  [ {| at_ms := of_nat 5000; which := ReqTimeout |};
    {| at_ms := of_nat 5001; which := ReqError "ECONNRESET" |} ].

Definition demo_net : network :=
  λ i, if Nat.even i then answered (10 - i) else timed_out.

(** A network on which every connection is refused. *)
Definition refused : fate :=
  [ {| at_ms := of_nat 1; which := ReqError "ECONNREFUSED" |} ].

Definition all_refused : network := λ _, refused.

(** The [TypeError] raised by [min.toFixed(2)] when [min] is [undefined]. *)
Definition toFixed_of_undefined : js_error :=
  TypeError "Cannot read properties of undefined (reading 'toFixed')".

(** Reading a trace: the requests dispatched, the requests settled, the
    barriers passed, and the counter of simultaneously active requests
    (one up at each dispatch, one down when a promise settles). *)
Definition dispatched (tr : list event) : list nat :=
  omap (λ e, match e with Dispatch i _ _ => Some i | _ => None end) tr.

Definition settled_ids (tr : list event) : list nat :=
  omap (λ e, match e with Settle i _ => Some i | _ => None end) tr.

Definition barriers (tr : list event) : nat :=
  length (omap (λ e, match e with Barrier => Some () | _ => None end) tr).

Definition active (tr : list event) : Z :=
  (Z.of_nat (length (dispatched tr)) - Z.of_nat (length (settled_ids tr)))%Z.

(** The batch a measured request belongs to, [first] being the sequence
    number of the first measured request. *)
Definition batch_of (first batchSize id : nat) : nat :=
  (id - first) / batchSize.

(** The same request, started [δ] milliseconds later; the same world with
    its clock [δ] milliseconds ahead. *)
Definition shift_request (δ : Qc) (r : request) : request :=
  {| id := id r; start := (start r + δ)%Qc |}.

Definition shift_world (δ : Qc) (w : world) : world :=
  set_now (now w + δ)%Qc w.

(** The configuration without warmup requests. *)
Definition no_warmup (cfg : config) : config :=
  {| WARMUP_REQUESTS := 0;
     BENCHMARK_REQUESTS := BENCHMARK_REQUESTS cfg;
     CONCURRENT_REQUESTS := CONCURRENT_REQUESTS cfg |}.

(** The trace of [n] requests issued one after the other from number
    [first], each settled before the next is dispatched. *)
Definition sequential_trace (net : network) (port : nat) (path : string)
    (first n : nat) : list event :=
  flat_map (λ i, [Dispatch i port path;
                  Settle i (fulfilled (settled (net i)))]) (seq first n).

(** The events a scenario run can produce: requests, barriers and the
    lines of its own block of output. *)
Definition scenario_event (e : event) : Prop :=
  match e with
  | Dispatch _ _ _ | Settle _ _ | Barrier => True
  | Stdout (Benchmarking _) | Stdout (WarmupLine _) | Stdout (RunningLine _)
  | Stdout (CompletedLine _ _) | Stdout (RequestsPerSec _)
  | Stdout (LatencyLine _ _ _) | Stdout (PercentilesLine _ _ _)
  | Stdout (ErrorsLine _) => True
  | _ => False
  end.

(** A line of the summary table. *)
Definition summary_line (e : event) : Prop :=
  match e with
  | Stdout (Text "BENCHMARK SUMMARY") | Stdout SummaryHeader
  | Stdout (SummaryRow _ _ _) => True
  | _ => False
  end.

(** The summary table of a list of results. *)
Definition summary_lines (benchmarkResults : list Result.t) : list event :=
  [Stdout (Text "BENCHMARK SUMMARY"); Stdout SummaryHeader]
  ++ ((λ r, Stdout (SummaryRow (Result.name r) (Result.reqPerSec r)
                      (Latency.avg (Result.latency r))))
      <$> benchmarkResults).

(** A computation that leaves the server alone and only emits events
    satisfying [P]. *)
Definition quiet {A} (P : event → Prop) (m : M A) : Prop :=
  ∀ w o w' tr, m w = (o, w', tr) → server w' = server w ∧ Forall P tr.

(** A network that answers the first seven requests and refuses all
    later connections. *)
Definition demo_outage : network :=
  λ i, if i <? 7 then answered 1 else refused.

(** The six scenarios of [runBenchmarks], in the order they are run. *)
Definition scenario_paths : list string :=
  ["/simple"; "/json"; "/users/123"; "/search?q=test&limit=10&offset=0";
   "/middleware"; "/static"].

Definition scenario_names : list string :=
  ["Simple Route"; "JSON Route (Header Cache)"; "Parameterized Route";
   "Query String Route (LRU Cache)"; "Middleware Chain (5 middleware)";
   "Static Route (Fast Path)"].

(** An event of the scenario runs against the server on [port]: a request
    to that port and to one of [paths], a settlement, a barrier or a line
    of standard output. *)
Definition within_run (port : nat) (paths : list string) (e : event) : Prop :=
  match e with
  | Dispatch _ q path => q = port ∧ path ∈ paths
  | Settle _ _ | Barrier | Stdout _ => True
  | Stderr _ | ServerListen _ | ServerClose | ProcessExit _ => False
  end.

Definition is_dispatch (e : event) : Prop :=
  match e with Dispatch _ _ _ => True | _ => False end.

(** The names printed in the rows of the summary table. *)
Definition summary_names (tr : list event) : list string :=
  omap (λ e, match e with
             | Stdout (SummaryRow name _ _) => Some name
             | _ => None
             end) tr.

(** A network that answers every request after one millisecond. *)
Definition all_answered : network := λ _, answered 1.

(** A network on which time moves forward: the first callback of a request
    never fires before the request started. *)
Definition forward (net : network) : Prop :=
  ∀ i f fa, net i = f :: fa → (0 <= at_ms f)%Qc.

(** * Properties *)

Local Open Scope Z_scope.
Local Open Scope nat_scope.

(** ** Promises settle once *)

Lemma fire_settled f p : p ≠ Pending → fire f p = p.
Proof. destruct p, f as [a []]; cbn; congruence. Qed.

Lemma fire_pending f : fire f Pending ≠ Pending.
Proof. destruct f as [a []]; cbn; congruence. Qed.

Lemma settled_foldl fa p :
  p ≠ Pending → foldl (λ p f, fire f p) p fa = p.
Proof.
  intros Hp. induction fa as [|f fa IH]; cbn; [done|].
  by rewrite fire_settled.
Qed.

Lemma settled_cons f fa : settled (f :: fa) = fire f Pending.
Proof. unfold settled. cbn. apply settled_foldl, fire_pending. Qed.

Lemma settled_pending fa : settled fa = Pending ↔ fa = [].
Proof.
  destruct fa as [|f fa]; [done|]. rewrite settled_cons.
  split; [|done]. intros H. by destruct (fire_pending f).
Qed.

Lemma deliver_settled fa p t :
  p ≠ Pending → foldl deliver (p, t) fa = (p, t).
Proof.
  intros Hp. induction fa as [|f fa IH]; cbn; [done|].
  rewrite fire_settled by done. by destruct p.
Qed.

Lemma contribute_nil t : contribute [] t = t.
Proof. done. Qed.

(** Only the first callback of a request counts. *)
Lemma contribute_cons f fa t :
  contribute (f :: fa) t =
  match which f with
  | ResEnd _ => {| times := times t ++ [at_ms f]; errors := errors t |}
  | _ => {| times := times t; errors := S (errors t) |}
  end.
Proof.
  unfold contribute. destruct f as [a []]; cbn;
    by rewrite deliver_settled.
Qed.

Lemma accounted_contribute fa t :
  accounted (contribute fa t) =
  accounted t + (if fa is [] then 0 else 1).
Proof.
  destruct fa as [|f fa]; [rewrite contribute_nil; lia|].
  rewrite contribute_cons. unfold accounted.
  destruct (which f); cbn; rewrite ?length_app; cbn; lia.
Qed.



(** ** Latency statistics *)

Lemma sort_times_perm l : sort_times l ≡ₚ l.
Proof. apply merge_sort_Permutation. Qed.

Lemma sort_times_length l : length (sort_times l) = length l.
Proof. by rewrite sort_times_perm. Qed.

Lemma sort_times_sorted l : Sorted Qcle (sort_times l).
Proof. apply (Sorted_merge_sort Qcle). Qed.

Lemma js_index_in_range {A} (arr : list A) (i : Z) :
  (0 ≤ i < Z.of_nat (length arr))%Z →
  ∃ x, js_index arr i = Some x ∧ x ∈ arr.
Proof.
  intros [H0 H1]. unfold js_index. rewrite decide_True by done.
  destruct (lookup_lt_is_Some_2 arr (Z.to_nat i)) as [x Hx]; [lia|].
  exists x. split; [done|]. by eapply list_elem_of_lookup_2.
Qed.

Lemma js_index_out_of_range {A} (arr : list A) (i : Z) :
  (i < 0 ∨ Z.of_nat (length arr) ≤ i)%Z → js_index arr i = None.
Proof.
  intros H. unfold js_index. case_decide; [|done].
  apply lookup_ge_None_2. lia.
Qed.

Lemma floor_mul_range n p :
  (0 <= p)%Q → (p < 1)%Q → 0 < n → (0 ≤ floor_mul n p < Z.of_nat n)%Z.
Proof.
  intros Hp0 Hp1 Hn. unfold floor_mul.
  set (k := inject_Z (Z.of_nat n)).
  assert (0 < k)%Q as Hk.
  { unfold k. change 0%Q with (inject_Z 0). rewrite <- Zlt_Qlt. lia. }
  assert (0 <= k * p)%Q as Hx0.
  { apply Qmult_le_0_compat; [by apply Qlt_le_weak|done]. }
  assert (k * p < k)%Q as Hx1.
  { rewrite <- (Qmult_1_r k) at 2. by apply Qmult_lt_l. }
  split.
  - change 0%Z with (Qfloor 0). by apply Qfloor_resp_le.
  - rewrite Zlt_Qlt. eapply Qle_lt_trans; [apply Qfloor_le|done].
Qed.

(** C10: on a non-empty latency array the three percentile indices
    floor(n*0.5), floor(n*0.95) and floor(n*0.99) lie in [0, n-1], so each
    reported percentile is an element of the sorted array. *)
Theorem percentile_indices_in_bounds (latencies : list Qc) :
  latencies ≠ [] →
  let sorted := sort_times latencies in
  let n := length sorted in
  let stats := calculate_statistics sorted in
  (0 ≤ floor_mul n 0.5 ≤ Z.of_nat n - 1)%Z ∧
  (0 ≤ floor_mul n 0.95 ≤ Z.of_nat n - 1)%Z ∧
  (0 ≤ floor_mul n 0.99 ≤ Z.of_nat n - 1)%Z ∧
  ∃ a b c,
    Latency.p50 stats = Some a ∧ a ∈ sorted ∧
    Latency.p95 stats = Some b ∧ b ∈ sorted ∧
    Latency.p99 stats = Some c ∧ c ∈ sorted.
Proof.
  intros Hne sorted n stats.
  assert (0 < n) as Hn.
  { unfold n, sorted. rewrite sort_times_length.
    destruct latencies; [done|cbn; lia]. }
  pose proof (floor_mul_range n 0.5 ltac:(done) ltac:(done) Hn) as H50.
  pose proof (floor_mul_range n 0.95 ltac:(done) ltac:(done) Hn) as H95.
  pose proof (floor_mul_range n 0.99 ltac:(done) ltac:(done) Hn) as H99.
  split_and!; try lia.
  destruct (js_index_in_range sorted _ H50) as (a & Ha & Hain).
  destruct (js_index_in_range sorted _ H95) as (b & Hb & Hbin).
  destruct (js_index_in_range sorted _ H99) as (c & Hc & Hcin).
  by exists a, b, c.
Qed.

Lemma percentile_indices_in_bounds_witness :
  let latencies := [Q2Qc 7; Q2Qc 3; Q2Qc 5] in
  latencies ≠ [] ∧
  ∃ a b c,
    Latency.p50 (calculate_statistics (sort_times latencies)) = Some a ∧
    a ∈ sort_times latencies ∧
    Latency.p95 (calculate_statistics (sort_times latencies)) = Some b ∧
    b ∈ sort_times latencies ∧
    Latency.p99 (calculate_statistics (sort_times latencies)) = Some c ∧
    c ∈ sort_times latencies.
Proof.
  split; [done|].
  apply (percentile_indices_in_bounds [Q2Qc 7; Q2Qc 3; Q2Qc 5]). done.
Defined.


(** ** Running the monad *)

Lemma run_bind {A B} (m : M A) (k : A → M B) w :
  (m ≫= k) w =
  match m w with
  | (Ret a, w1, t1) => let '(o, w2, t2) := k a w1 in (o, w2, t1 ++ t2)
  | (Throw e, w1, t1) => (Throw e, w1, t1)
  | (Hang, w1, t1) => (Hang, w1, t1)
  end.
Proof. reflexivity. Qed.

Lemma run_ret {A} (a : A) w : (mret a : M A) w = (Ret a, w, []).
Proof. reflexivity. Qed.

Lemma for_loop_S {St} from n (body : nat → St → M St) s w :
  for_loop from (S n) body s w =
  match body from s w with
  | (Ret s', w1, t1) =>
      let '(o, w2, t2) := for_loop (S from) n body s' w1 in (o, w2, t1 ++ t2)
  | (Throw e, w1, t1) => (Throw e, w1, t1)
  | (Hang, w1, t1) => (Hang, w1, t1)
  end.
Proof. reflexivity. Qed.

Lemma set_issued_same w : set_issued (issued w) w = w.
Proof. by destruct w. Qed.

Section BatchFacts.
Context (cfg : config) (net : network).

Lemma launch_loop port path n : ∀ k acc w,
  for_loop k n (λ _ promises,
    r ← makeRequest port path; mret (promises ++ [r])) acc w
  = (Ret (acc ++ batch_requests w n),
     set_issued (issued w + n) w,
     dispatch_events port path w n).
Proof.
  unfold batch_requests, dispatch_events.
  induction n as [|n IH]; intros k acc w.
  - cbn. by rewrite app_nil_r, Nat.add_0_r, set_issued_same.
  - rewrite for_loop_S, run_bind. cbn [makeRequest].
    rewrite run_ret, IH. cbn.
    rewrite <- app_assoc. cbn. unfold set_issued. cbn.
    by replace (issued w + S n) with (S (issued w + n)) by lia.
Qed.

Lemma launch_run port path n w :
  launch port path n w
  = (Ret (batch_requests w n), set_issued (issued w + n) w,
     dispatch_events port path w n).
Proof. unfold launch. by rewrite launch_loop. Qed.

Lemma react_all_run rs : ∀ t w,
  react_all net rs t w
  = (Ret (tally_after net rs t), clock_after net rs w, settle_events net rs).
Proof.
  induction rs as [|r rs IH]; intros t w; [done|].
  cbn [react_all]. rewrite run_bind. cbn [react]. by rewrite IH.
Qed.

Lemma accounted_tally_after rs t :
  Forall (settles net) rs →
  accounted (tally_after net rs t) = accounted t + length rs.
Proof.
  unfold tally_after.
  revert t. induction rs as [|r rs IH]; intros t Hrs; cbn; [lia|].
  inversion_clear Hrs as [|?? Hr Hrs']. rewrite IH by done.
  rewrite accounted_contribute. unfold settles in Hr.
  destruct (net (id r)); [done|lia].
Qed.

Lemma filter_settles_all (promises : list request) :
  Forall (settles net) promises → filter (settles net) promises = promises.
Proof.
  induction 1 as [|r rs Hr Hrs IH]; [done|].
  rewrite filter_cons_True by done. by rewrite IH.
Qed.

Lemma settling_order_perm (promises : list request) :
  settling_order net promises ≡ₚ filter (settles net) promises.
Proof. apply merge_sort_Permutation. Qed.

Lemma settling_order_all (promises : list request) :
  Forall (settles net) promises → settling_order net promises ≡ₚ promises.
Proof.
  intros H. rewrite settling_order_perm. by rewrite filter_settles_all.
Qed.

Lemma await_all_run promises t w :
  await_all net promises t w =
  let rs := settling_order net promises in
  if decide (Forall (settles net) promises)
  then (Ret (tally_after net rs t), clock_after net rs w,
        settle_events net rs ++ [Barrier])
  else (Hang, clock_after net rs w, settle_events net rs).
Proof.
  unfold await_all. rewrite run_bind, react_all_run. fold (settling_order net promises).
  case_decide; cbn; [done|]. by rewrite app_nil_r.
Qed.

Lemma run_batch_run port path count batch t w :
  run_batch cfg net port path count batch t w =
  let batchCount :=
    Nat.min (CONCURRENT_REQUESTS cfg)
            (count - batch * CONCURRENT_REQUESTS cfg) in
  let '(o, w', tr) :=
    await_all net (batch_requests w batchCount) t
      (set_issued (issued w + batchCount) w) in
  (o, w', dispatch_events port path w batchCount ++ tr).
Proof. unfold run_batch. by rewrite run_bind, launch_run. Qed.

Lemma issued_clock_after rs w : issued (clock_after net rs w) = issued w.
Proof.
  unfold clock_after. revert w.
  induction rs as [|r rs IH]; intros w; cbn; [done|]. by rewrite IH.
Qed.

Lemma server_clock_after rs w : server (clock_after net rs w) = server w.
Proof.
  unfold clock_after. revert w.
  induction rs as [|r rs IH]; intros w; cbn; [done|]. by rewrite IH.
Qed.
End BatchFacts.

(** ** The number of batches *)

Lemma Qceiling_div (a b : Z) :
  Qceiling (inject_Z a / inject_Z b) = (- (- a / b))%Z.
Proof.
  unfold Qceiling. f_equal. rewrite Zdiv_Qdiv. apply Qfloor_comp.
  rewrite inject_Z_opp. unfold Qdiv. ring.
Qed.

Lemma ceil_div_spec count batchSize :
  batchSize ≠ 0 →
  ∃ batches, ceil_div count batchSize = Finite batches ∧
             count ≤ batches * batchSize < count + batchSize.
Proof.
  intros Hbs. unfold ceil_div. rewrite decide_False by done.
  eexists; split; [done|]. rewrite Qceiling_div.
  set (a := Z.of_nat count). set (b := Z.of_nat batchSize).
  assert (0 < b)%Z as Hb by lia.
  pose proof (Z.div_mod (- a) b ltac:(lia)) as Hdm.
  pose proof (Z.mod_pos_bound (- a) b Hb) as Hmod.
  set (q := (- a / b)%Z) in *. set (r := (- a mod b)%Z) in *.
  assert (0 ≤ - q)%Z by nia.
  split.
  - apply Nat2Z.inj_le. rewrite Nat2Z.inj_mul, Z2Nat.id by done. nia.
  - apply Nat2Z.inj_lt. rewrite Nat2Z.inj_add, Nat2Z.inj_mul, Z2Nat.id by done.
    nia.
Qed.

(** ** Inversion of monadic runs *)

Lemma bind_Ret_inv {A B} (m : M A) (k : A → M B) w b w' tr :
  (m ≫= k) w = (Ret b, w', tr) →
  ∃ a w1 t1 t2, m w = (Ret a, w1, t1) ∧ k a w1 = (Ret b, w', t2) ∧
                tr = t1 ++ t2.
Proof.
  rewrite run_bind. destruct (m w) as [[[a| |] w1] t1]; [|done..].
  destruct (k a w1) as [[o w2] t2] eqn:Hk. intros [= -> -> <-].
  by exists a, w1, t1, t2.
Qed.

(** ** Accounting *)

Section Accounting.
Context (cfg : config) (net : network).

Lemma batch_requests_length w n : length (batch_requests w n) = n.
Proof. unfold batch_requests. by rewrite length_fmap, length_seq. Qed.

Lemma run_batch_accounted port path count batch t w t' w' tr :
  run_batch cfg net port path count batch t w = (Ret t', w', tr) →
  accounted t' = accounted t +
    Nat.min (CONCURRENT_REQUESTS cfg) (count - batch * CONCURRENT_REQUESTS cfg).
Proof.
  rewrite run_batch_run. cbv zeta. rewrite await_all_run. cbv zeta.
  case_decide as Hall; [|done]. intros [= <- <- <-].
  pose proof (settling_order_all net _ Hall) as Hperm.
  rewrite accounted_tally_after by (by rewrite Hperm).
  by rewrite Hperm, batch_requests_length.
Qed.

Lemma batches_accounted port path count n : ∀ k t w t' w' tr,
  for_loop k n (run_batch cfg net port path count) t w = (Ret t', w', tr) →
  accounted t' + Nat.min count (k * CONCURRENT_REQUESTS cfg)
  = accounted t + Nat.min count ((k + n) * CONCURRENT_REQUESTS cfg).
Proof.
  induction n as [|n IH]; intros k t w t' w' tr.
  - cbn. intros [= <- <- <-]. by rewrite Nat.add_0_r.
  - rewrite for_loop_S.
    destruct (run_batch _ _ _ _ _ _ _ _) as [[[t1| |] w1] tr1] eqn:Hb;
      [|done..].
    destruct (for_loop _ _ _ _ _) as [[o w2] tr2] eqn:Hl.
    intros [= -> -> <-].
    apply run_batch_accounted in Hb. apply IH in Hl. nia.
Qed.

Lemma run_batches_accounted port path count t w t' w' tr :
  run_batches cfg net port path count t w = (Ret t', w', tr) →
  accounted t' = accounted t + count.
Proof.
  unfold run_batches.
  destruct (decide (CONCURRENT_REQUESTS cfg = 0)) as [H0|H0].
  - unfold ceil_div. rewrite decide_True by done.
    case_decide; [|done]. intros [= <- <- <-]. lia.
  - destruct (ceil_div_spec count _ H0) as (b & -> & Hb).
    intros H%batches_accounted. cbn in H. lia.
Qed.

Lemma report_Ret name count t totalTime w r w' tr :
  report name count (t, totalTime) w = (Ret r, w', tr) →
  r = {| Result.name := name; Result.count := count;
         Result.totalTime := totalTime;
         Result.reqPerSec :=
           js_mul (js_div (of_nat count) totalTime) (of_nat 1000);
         Result.latency := calculate_statistics (sort_times (times t));
         Result.errors := errors t |}.
Proof.
  unfold report.
  destruct (calculate_statistics (sort_times (times t)))
    as [avg [mn|] [mx|] [a|] [b|] [c|]] eqn:Hs; cbn; try done.
  by intros [= <- <- <-].
Qed.

Lemma measure_run port path name count w :
  measure cfg net port path name count w =
  let head := [Stdout (Benchmarking name);
               Stdout (WarmupLine (WARMUP_REQUESTS cfg))] in
  match warmup cfg net port path w with
  | (Ret _, w1, tr1) =>
      let '(o, w2, tr2) :=
        run_batches cfg net port path count {| times := []; errors := 0 |} w1 in
      (match o with
       | Ret t => Ret (t, (now w2 - now w1)%Qc)
       | Throw e => Throw e
       | Hang => Hang
       end, w2, head ++ tr1 ++ Stdout (RunningLine count) :: tr2)
  | (Throw e, w1, tr1) => (Throw e, w1, head ++ tr1)
  | (Hang, w1, tr1) => (Hang, w1, head ++ tr1)
  end.
Proof.
  unfold measure. rewrite run_bind. cbn [console_log emit].
  rewrite run_bind. cbn [console_log emit]. rewrite run_bind.
  destruct (warmup cfg net port path w) as [[[[]| |] w1] tr1]; [|done..].
  rewrite run_bind. cbn [console_log emit].
  rewrite run_bind. cbn [performance_now]. rewrite run_bind.
  destruct (run_batches _ _ _ _ _ _ _) as [[[t| |] w2] tr2]; cbn;
    rewrite ?run_bind; cbn; rewrite ?app_nil_r; done.
Qed.

Lemma measure_Ret port path name count w t totalTime w' tr :
  measure cfg net port path name count w = (Ret (t, totalTime), w', tr) →
  ∃ w1 tr2,
    run_batches cfg net port path count {| times := []; errors := 0 |} w1
    = (Ret t, w', tr2) ∧ totalTime = (now w' - now w1)%Qc.
Proof.
  rewrite measure_run. cbv zeta.
  destruct (warmup cfg net port path w) as [[[[]| |] w1] tr1]; [|done..].
  destruct (run_batches _ _ _ _ _ _ _) as [[[t1| |] w2] tr2] eqn:Hrun;
    [|done..].
  intros [= <- <- <- _]. eauto.
Qed.

Lemma measure_accounted port path name count w t totalTime w' tr :
  measure cfg net port path name count w = (Ret (t, totalTime), w', tr) →
  length (times t) + errors t = count.
Proof.
  intros (w1 & tr2 & Hrun & _)%measure_Ret.
  apply run_batches_accounted in Hrun. unfold accounted in Hrun.
  cbn in Hrun. lia.
Qed.

Lemma benchmarkRoute_inv port path name count w r w' tr :
  benchmarkRoute cfg net port path name count w = (Ret r, w', tr) →
  ∃ t totalTime w1 tr1 tr2,
    measure cfg net port path name count w = (Ret (t, totalTime), w1, tr1) ∧
    report name count (t, totalTime) w1 = (Ret r, w', tr2).
Proof.
  unfold benchmarkRoute. intros H.
  apply bind_Ret_inv in H as ([t totalTime] & w1 & tr1 & tr2 & Hm & Hr & _).
  by exists t, totalTime, w1, tr1, tr2.
Qed.

(** C1: a completed scenario run reports a request count equal to the
    number of collected latency samples plus the error count. *)
Theorem accounting_invariant port path name count w r w' tr :
  benchmarkRoute cfg net port path name count w = (Ret r, w', tr) →
  ∃ t totalTime w1 tr1,
    measure cfg net port path name count w = (Ret (t, totalTime), w1, tr1) ∧
    Result.latency r = calculate_statistics (sort_times (times t)) ∧
    Result.errors r = errors t ∧
    Result.count r = count ∧
    Result.count r = length (sort_times (times t)) + Result.errors r.
Proof.
  intros H.
  apply benchmarkRoute_inv in H as (t & totalTime & w1 & tr1 & tr2 & Hm & Hr).
  exists t, totalTime, w1, tr1. split; [done|].
  apply report_Ret in Hr as ->. cbn. split_and!; try done.
  apply measure_accounted in Hm. rewrite sort_times_length. lia.
Qed.
End Accounting.

Lemma accounting_invariant_witness :
  ∃ r w' tr,
    benchmarkRoute demo_cfg demo_net 8080 "/simple" "Simple Route" 5 boot
    = (Ret r, w', tr) ∧
    Result.count r = 5 ∧ Result.errors r = 2.
Proof.
  eexists _, _, _. split; [vm_compute; reflexivity|].
  edestruct (accounting_invariant demo_cfg demo_net 8080
               "/simple" "Simple Route" 5 boot)
    as (t & totalTime & w1 & tr1 & Hm & Hl & He & Hc & Hacc).
  { vm_compute. reflexivity. }
  split; [exact Hc|]. vm_compute. reflexivity.
Defined.

(** ** No successful request *)

(** With no latency sample the average is 0/0, [min] is [undefined], and
    formatting [min] throws after the first two lines were printed. *)
Lemma report_no_samples name count errs totalTime w :
  report name count ({| times := []; errors := errs |}, totalTime) w
  = (Throw toFixed_of_undefined, w,
     [Stdout (CompletedLine count totalTime);
      Stdout (RequestsPerSec
                (js_mul (js_div (of_nat count) totalTime) (of_nat 1000)))]).
Proof. reflexivity. Qed.

Lemma report_Ret_some_sample name count t totalTime w r w' tr :
  report name count (t, totalTime) w = (Ret r, w', tr) → times t ≠ [].
Proof.
  intros H Hnil. destruct t as [ts errs]. cbn in Hnil. subst ts.
  by rewrite report_no_samples in H.
Qed.

(** C5 (the code departs from it): with the shipped configuration and
    every request refused, the statistics divide 0 by 0 (the average is
    NaN), [min] is [undefined], and [benchmarkRoute] throws a [TypeError]
    instead of returning a result. *)
Theorem all_failed_run_throws :
  (benchmarkRoute shipped all_refused 8080 "/simple" "Simple Route"
     (BENCHMARK_REQUESTS shipped) boot).1.1
  = Throw toFixed_of_undefined ∧
  Latency.avg (calculate_statistics (sort_times [])) = NaN ∧
  Latency.min (calculate_statistics (sort_times [])) = None.
Proof. split_and!; vm_compute; reflexivity. Qed.

(** ** Reading traces *)

Lemma dispatched_app t1 t2 : dispatched (t1 ++ t2) = dispatched t1 ++ dispatched t2.
Proof. apply omap_app. Qed.

Lemma settled_ids_app t1 t2 :
  settled_ids (t1 ++ t2) = settled_ids t1 ++ settled_ids t2.
Proof. apply omap_app. Qed.

Lemma barriers_app t1 t2 : barriers (t1 ++ t2) = barriers t1 + barriers t2.
Proof. unfold barriers. by rewrite omap_app, length_app. Qed.

Lemma active_app t1 t2 : active (t1 ++ t2) = (active t1 + active t2)%Z.
Proof.
  unfold active. rewrite dispatched_app, settled_ids_app, !length_app. lia.
Qed.

Lemma dispatched_dispatch_events port path w n :
  dispatched (dispatch_events port path w n) = seq (issued w) n.
Proof.
  unfold dispatch_events, dispatched.
  induction (seq (issued w) n) as [|i l IH]; cbn; [done|]. by rewrite IH.
Qed.

Lemma settled_ids_dispatch_events port path w n :
  settled_ids (dispatch_events port path w n) = [].
Proof.
  unfold dispatch_events, settled_ids.
  induction (seq (issued w) n) as [|i l IH]; cbn; done.
Qed.

Lemma barriers_dispatch_events port path w n :
  barriers (dispatch_events port path w n) = 0.
Proof.
  unfold dispatch_events, barriers.
  induction (seq (issued w) n) as [|i l IH]; cbn; done.
Qed.

Lemma dispatched_settle_events net rs : dispatched (settle_events net rs) = [].
Proof. induction rs as [|r rs IH]; cbn; done. Qed.

Lemma settled_ids_settle_events net rs :
  settled_ids (settle_events net rs) = id <$> rs.
Proof. induction rs as [|r rs IH]; cbn; [done|]. by f_equal. Qed.

Lemma barriers_settle_events net rs : barriers (settle_events net rs) = 0.
Proof. unfold barriers. induction rs as [|r rs IH]; cbn; done. Qed.

Lemma elem_of_dispatched j port path tr :
  Dispatch j port path ∈ tr → j ∈ dispatched tr.
Proof.
  intros H. unfold dispatched. apply list_elem_of_omap.
  by exists (Dispatch j port path).
Qed.

Lemma batch_requests_ids w n : id <$> batch_requests w n = seq (issued w) n.
Proof.
  unfold batch_requests. rewrite <- list_fmap_compose.
  apply list_fmap_id.
Qed.

Lemma elem_of_mid {A} (x : A) l1 l2 : x ∈ l1 ++ x :: l2.
Proof. apply elem_of_app. right. apply elem_of_cons. by left. Qed.

Lemma prefix_app_inv {A} (pre l1 l2 : list A) :
  pre `prefix_of` l1 ++ l2 →
  pre `prefix_of` l1 ∨ ∃ pre2, pre = l1 ++ pre2 ∧ pre2 `prefix_of` l2.
Proof.
  intros [k Hk]. apply app_eq_app in Hk as [l [[-> ->]|[-> ->]]].
  - left. by exists l.
  - right. exists l. split; [done|]. by exists k.
Qed.

Lemma prefix_counts pre tr :
  pre `prefix_of` tr →
  length (dispatched pre) ≤ length (dispatched tr) ∧
  length (settled_ids pre) ≤ length (settled_ids tr).
Proof.
  intros [k ->]. rewrite dispatched_app, settled_ids_app, !length_app. lia.
Qed.

(** ** One batch *)

Section Batches.
Context (cfg : config) (net : network).

(** The shape of the trace of one iteration of the batch loop. *)
Lemma run_batch_shape port path count batch t w o w' tr :
  run_batch cfg net port path count batch t w = (o, w', tr) →
  let batchCount :=
    Nat.min (CONCURRENT_REQUESTS cfg)
            (count - batch * CONCURRENT_REQUESTS cfg) in
  ∃ rs,
    rs ≡ₚ filter (settles net) (batch_requests w batchCount) ∧
    issued w' = issued w + batchCount ∧
    server w' = server w ∧
    ((o = Hang ∧ tr = dispatch_events port path w batchCount
                      ++ settle_events net rs) ∨
     (∃ t', o = Ret t' ∧ rs ≡ₚ batch_requests w batchCount ∧
            tr = dispatch_events port path w batchCount
                 ++ settle_events net rs ++ [Barrier])).
Proof.
  rewrite run_batch_run. cbv zeta. rewrite await_all_run. cbv zeta.
  set (bc := Nat.min _ _). set (rs := settling_order net _).
  intros H. exists rs. split; [apply settling_order_perm|].
  case_decide as Hall; injection H as <- <- <-;
    rewrite issued_clock_after, server_clock_after; cbn;
    (split; [done|]); (split; [done|]).
  - right. eexists. split; [done|]. split; [|done].
    by apply settling_order_all.
  - by left.
Qed.

Lemma run_batch_active port path count batch t w o w' tr :
  run_batch cfg net port path count batch t w = (o, w', tr) →
  (∀ pre, pre `prefix_of` tr →
     (0 ≤ active pre ≤ Z.of_nat (CONCURRENT_REQUESTS cfg))%Z) ∧
  (∀ t', o = Ret t' → active tr = 0%Z).
Proof.
  intros H. apply run_batch_shape in H. cbv zeta in H.
  set (bc := Nat.min _ _) in H.
  destruct H as (rs & Hrs & _ & _ & Hshape).
  assert (bc ≤ CONCURRENT_REQUESTS cfg) as Hbc by (unfold bc; lia).
  assert (length rs ≤ bc) as Hlen.
  { rewrite Hrs. etrans; [apply length_filter|].
    by rewrite batch_requests_length. }
  assert (∀ pre, pre `prefix_of` dispatch_events port path w bc
                                 ++ settle_events net rs ++ [Barrier] →
                 (0 ≤ active pre ≤ Z.of_nat bc)%Z) as Hpre.
  { intros pre [Hp|(pre2 & -> & Hp)]%prefix_app_inv.
    - apply prefix_counts in Hp.
      rewrite dispatched_dispatch_events, settled_ids_dispatch_events,
        length_seq in Hp.
      unfold active. cbn in Hp. lia.
    - apply prefix_counts in Hp.
      rewrite dispatched_app, settled_ids_app, dispatched_settle_events,
        settled_ids_settle_events, !length_app, length_fmap in Hp.
      cbn in Hp. unfold active.
      rewrite dispatched_app, settled_ids_app, !length_app,
        dispatched_dispatch_events, settled_ids_dispatch_events, length_seq.
      cbn. lia. }
  destruct Hshape as [[-> ->]|(t' & -> & Hall & ->)].
  - split; [|done]. intros pre Hp. cut (0 ≤ active pre ≤ Z.of_nat bc)%Z; [lia|].
    apply Hpre. etrans; [done|]. rewrite (assoc_L (++)). by apply prefix_app_r.
  - split.
    + intros pre Hp. specialize (Hpre pre Hp). lia.
    + intros _ _. unfold active.
      rewrite !dispatched_app, !settled_ids_app, !length_app,
        dispatched_dispatch_events, settled_ids_dispatch_events,
        dispatched_settle_events, settled_ids_settle_events,
        length_seq, length_fmap, Hall, batch_requests_length.
      cbn. lia.
Qed.
End Batches.

(** ** The batch loop *)

Section BatchLoop.
Context (cfg : config) (net : network).
Context (port : nat) (path : string) (count : nat).
Local Abbreviation batchSize := (CONCURRENT_REQUESTS cfg).
Local Abbreviation loop := (for_loop (St := tally)).

Lemma batches_active n : ∀ k t w o w' tr,
  loop k n (run_batch cfg net port path count) t w = (o, w', tr) →
  (∀ pre, pre `prefix_of` tr → (0 ≤ active pre ≤ Z.of_nat batchSize)%Z) ∧
  (∀ t', o = Ret t' → active tr = 0%Z).
Proof.
  induction n as [|n IH]; intros k t w o w' tr.
  - cbn. intros [= <- <- <-]. split; [|done].
    intros pre ->%prefix_nil_inv. unfold active. cbn. lia.
  - rewrite for_loop_S.
    destruct (run_batch _ _ _ _ _ _ _ _) as [[o1 w1] tr1] eqn:Hb.
    apply run_batch_active in Hb as [Hpre1 Hz1].
    destruct o1 as [t1| |]; [|intros [= <- <- <-]; by split..].
    destruct (loop _ _ _ _ _) as [[o2 w2] tr2] eqn:Hl.
    apply IH in Hl as [Hpre2 Hz2]. intros [= <- <- <-].
    specialize (Hz1 _ eq_refl). split.
    + intros pre [Hp|(pre2 & -> & Hp)]%prefix_app_inv; [by apply Hpre1|].
      rewrite active_app, Hz1. by apply Hpre2.
    + intros t' Ho. rewrite active_app, Hz1. by erewrite Hz2.
Qed.

Lemma batches_never_throw n : ∀ k t w o w' tr,
  loop k n (run_batch cfg net port path count) t w = (o, w', tr) →
  ∀ e, o ≠ Throw e.
Proof.
  induction n as [|n IH]; intros k t w o w' tr.
  - cbn. by intros [= <- <- <-].
  - rewrite for_loop_S.
    destruct (run_batch _ _ _ _ _ _ _ _) as [[o1 w1] tr1] eqn:Hb.
    apply run_batch_shape in Hb as (rs & _ & _ & _ & [[-> _]|(t1 & -> & _)]).
    + by intros [= <- <- <-].
    + destruct (loop _ _ _ _ _) as [[o2 w2] tr2] eqn:Hl.
      intros [= <- <- <-]. by eapply IH.
Qed.

(** A completed loop of [n] batches starting with batch [k]. *)
Lemma batches_completed n : ∀ k t w t' w' tr,
  loop k n (run_batch cfg net port path count) t w = (Ret t', w', tr) →
  let issued_by := λ batch, Nat.min count (batch * batchSize) in
  dispatched tr = seq (issued w) (issued_by (k + n) - issued_by k) ∧
  issued w' = issued w + (issued_by (k + n) - issued_by k) ∧
  barriers tr = n.
Proof.
  induction n as [|n IH]; intros k t w t' w' tr; cbv zeta.
  - cbn. intros [= <- <- <-]. rewrite Nat.add_0_r, Nat.sub_diag. cbn.
    split_and!; [done|lia|done].
  - rewrite for_loop_S.
    destruct (run_batch _ _ _ _ _ _ _ _) as [[o1 w1] tr1] eqn:Hb.
    apply run_batch_shape in Hb
      as (rs & _ & Hi1 & _ & [[-> _]|(t1 & -> & _ & ->)]); [done|].
    destruct (loop _ _ _ _ _) as [[o2 w2] tr2] eqn:Hl.
    intros [= -> <- <-]. apply IH in Hl as (Hd & Hi & Hb).
    cbv zeta in Hd, Hi.
    set (bc := Nat.min _ _) in *.
    assert (Nat.min count ((k + S n) * batchSize) - Nat.min count (k * batchSize)
            = bc + (Nat.min count ((S k + n) * batchSize)
                    - Nat.min count (S k * batchSize))) as ->
      by (unfold bc; nia).
    rewrite !dispatched_app, !barriers_app, dispatched_dispatch_events,
      dispatched_settle_events, barriers_dispatch_events,
      barriers_settle_events, Hd, Hi, Hi1, Hb.
    cbn. split_and!; [|lia|done].
    by rewrite app_nil_r, seq_app.
Qed.
End BatchLoop.

(** ** The barrier between batches *)

Lemma batch_of_in first batchSize k j :
  first + k * batchSize ≤ j < first + (k + 1) * batchSize →
  batch_of first batchSize j = k.
Proof.
  intros H. unfold batch_of. symmetry.
  apply (Nat.div_unique _ _ _ (j - first - k * batchSize)); lia.
Qed.

Lemma batch_of_lt first batchSize i k :
  0 < batchSize → batch_of first batchSize i < k → i < first + k * batchSize.
Proof.
  intros Hbs Hlt. unfold batch_of in Hlt.
  destruct (decide (i < first + k * batchSize)) as [|Hge]; [done|].
  assert (k ≤ (i - first) / batchSize); [|lia].
  apply Nat.div_le_lower_bound; lia.
Qed.

Section Barrier.
Context (cfg : config) (net : network).
Context (port : nat) (path : string) (count : nat).
Local Abbreviation batchSize := (CONCURRENT_REQUESTS cfg).
Local Abbreviation loop := (for_loop (St := tally)).

(** Every dispatch found in the trace of one batch belongs to that batch. *)
Lemma run_batch_dispatch_range batch t w o w' tr j port' path' :
  run_batch cfg net port path count batch t w = (o, w', tr) →
  Dispatch j port' path' ∈ tr →
  issued w ≤ j < issued w + batchSize.
Proof.
  intros H Hin. apply run_batch_shape in H. cbv zeta in H.
  set (bc := Nat.min _ _) in H.
  destruct H as (rs & _ & _ & _ & Hshape).
  assert (j ∈ seq (issued w) bc) as Hj%elem_of_seq; [|unfold bc in Hj; lia].
  apply elem_of_dispatched in Hin.
  destruct Hshape as [[_ ->]|(? & _ & _ & ->)];
    rewrite !dispatched_app, dispatched_dispatch_events,
      dispatched_settle_events in Hin; cbn in Hin;
    by rewrite ?app_nil_r in Hin.
Qed.

(** Once a batch has passed its barrier all its requests have settled. *)
Lemma run_batch_all_settled batch t w t' w' tr i :
  run_batch cfg net port path count batch t w = (Ret t', w', tr) →
  issued w ≤ i < issued w' → i ∈ settled_ids tr.
Proof.
  intros H Hi. apply run_batch_shape in H. cbv zeta in H.
  set (bc := Nat.min _ _) in H.
  destruct H as (rs & _ & Hi1 & _ & [[? _]|(? & _ & Hall & ->)]); [done|].
  rewrite !settled_ids_app, settled_ids_dispatch_events,
    settled_ids_settle_events, Hall, batch_requests_ids. cbn.
  rewrite app_nil_r. apply elem_of_seq. lia.
Qed.

Lemma batches_barrier first batches n : ∀ k t w o w' tr,
  0 < batchSize →
  count ≤ batches * batchSize < count + batchSize →
  k + n = batches →
  (n ≠ 0 → issued w = first + k * batchSize) →
  loop k n (run_batch cfg net port path count) t w = (o, w', tr) →
  ∀ pre j port' path' post i,
    tr = pre ++ Dispatch j port' path' :: post →
    issued w ≤ i →
    batch_of first batchSize i < batch_of first batchSize j →
    i ∈ settled_ids pre.
Proof.
  induction n as [|n IH]; intros k t w o w' tr Hbs Hb Hkn Hw.
  - cbn. intros [= <- <- <-] pre j port' path' post i Htr.
    by destruct pre.
  - specialize (Hw ltac:(done)). rewrite for_loop_S.
    destruct (run_batch _ _ _ _ _ _ _ _) as [[o1 w1] tr1] eqn:Hrun.
    assert (∀ j port' path' i,
              Dispatch j port' path' ∈ tr1 → issued w ≤ i →
              batch_of first batchSize i < batch_of first batchSize j → False)
      as Hsame.
    { intros j port' path' i Hin Hi Hlt.
      pose proof (run_batch_dispatch_range _ _ _ _ _ _ _ _ _ Hrun Hin) as Hj.
      rewrite (batch_of_in first batchSize k j) in Hlt by lia.
      apply batch_of_lt in Hlt; lia. }
    destruct o1 as [t1| |].
    + destruct (loop _ _ _ _ _) as [[o2 w2] tr2] eqn:Hl.
      intros [= <- <- <-] pre j port' path' post i Htr Hi Hlt.
      pose proof (run_batch_shape _ _ _ _ _ _ _ _ _ _ _ Hrun)
        as (rs & _ & Hi1 & _).
      cbv zeta in Hi1.
      assert (∃ l, pre = tr1 ++ l ∧ tr2 = l ++ Dispatch j port' path' :: post)
        as (l & -> & Htr2).
      { apply app_eq_app in Htr as [l [[Hl1 Hl2]|[Hl1 Hl2]]];
          [|by exists l].
        destruct l as [|e l].
        - exists []. rewrite app_nil_r in Hl1. cbn in Hl2. subst.
          by rewrite app_nil_r.
        - injection Hl2 as <- Hl2. exfalso.
          eapply (Hsame j port' path' i); [|done..].
          rewrite Hl1. apply elem_of_mid. }
      rewrite settled_ids_app. apply elem_of_app.
      destruct (decide (i < issued w1)) as [Hlt1|Hge1].
      * left. by eapply run_batch_all_settled.
      * right. eapply (IH (S k) t1 w1 o2 w2 tr2); [done|done|lia| |done..|lia|done].
        intros Hn. rewrite Hi1, Hw.
        assert ((k + 1) * batchSize ≤ count) by nia. lia.
    + intros [= <- <- <-] pre j port' path' post i -> Hi Hlt. exfalso.
      eapply (Hsame j port' path' i); [|done..]. apply elem_of_mid.
    + intros [= <- <- <-] pre j port' path' post i -> Hi Hlt. exfalso.
      eapply (Hsame j port' path' i); [|done..]. apply elem_of_mid.
Qed.
End Barrier.

(** C4: with a positive concurrency limit the measurement phase runs
    ceil(count / limit) batches; the counter of active requests stays within
    [0, limit]; no request of a later batch is dispatched before every
    request of the earlier batches has settled; a completed phase has
    dispatched exactly [count] requests. *)
Theorem full_barrier_batching cfg net port path count t w o w' tr :
  0 < CONCURRENT_REQUESTS cfg →
  run_batches cfg net port path count t w = (o, w', tr) →
  let batchSize := CONCURRENT_REQUESTS cfg in
  (∀ pre, pre `prefix_of` tr → (0 ≤ active pre ≤ Z.of_nat batchSize)%Z) ∧
  (∀ pre j port' path' post i,
     tr = pre ++ Dispatch j port' path' :: post →
     issued w ≤ i →
     batch_of (issued w) batchSize i < batch_of (issued w) batchSize j →
     i ∈ settled_ids pre) ∧
  (∀ t', o = Ret t' →
     dispatched tr = seq (issued w) count ∧
     count ≤ barriers tr * batchSize < count + batchSize).
Proof.
  intros Hbs. unfold run_batches.
  destruct (ceil_div_spec count (CONCURRENT_REQUESTS cfg)) as (b & -> & Hb);
    [lia|].
  intros Hloop. cbv zeta. split_and!.
  - by eapply batches_active.
  - eapply (batches_barrier cfg net port path count (issued w) b b 0);
      [done|done|done|lia|done].
  - intros t' ->. apply batches_completed in Hloop as (Hd & _ & Hbar).
    cbv zeta in Hd. rewrite Hbar. split; [|done].
    rewrite Hd. f_equal. cbn. lia.
Qed.

Lemma full_barrier_batching_witness :
  ∃ t' w' tr,
    0 < CONCURRENT_REQUESTS demo_cfg ∧
    run_batches demo_cfg demo_net 8080 "/simple" 5
      {| times := []; errors := 0 |} boot = (Ret t', w', tr) ∧
    dispatched tr = seq 0 5 ∧ barriers tr = 3.
Proof.
  eexists _, _, _. split; [cbn; lia|]. split; [vm_compute; reflexivity|].
  edestruct (full_barrier_batching demo_cfg demo_net 8080 "/simple" 5
               {| times := []; errors := 0 |} boot)
    as (_ & _ & Hdone); [cbn; lia|vm_compute; reflexivity|].
  destruct (Hdone _ eq_refl) as [Hd _].
  split; [exact Hd|]. vm_compute. reflexivity.
Defined.

(** ** Sorting and filtering commute with a map that respects the order *)

Section SortMap.
Context {A B : Type} (f : A → B).
Context (R1 : relation A) `{!RelDecision R1}.
Context (R2 : relation B) `{!RelDecision R2}.
Hypothesis R_f : ∀ x y, R1 x y ↔ R2 (f x) (f y).

Lemma list_merge_fmap (l1 : list A) : ∀ l2 : list A,
  list_merge R2 (f <$> l1) (f <$> l2) = f <$> list_merge R1 l1 l2.
Proof.
  induction l1 as [|x1 l1 IH1]; [by intros []|].
  induction l2 as [|x2 l2 IH2]; [done|].
  cbn. destruct (decide (R1 x1 x2)) as [H|H].
  - rewrite decide_True by (by apply R_f). cbn. f_equal. apply (IH1 (x2 :: l2)).
  - rewrite decide_False by (by rewrite <- R_f). cbn. f_equal. apply IH2.
Qed.

Local Abbreviation on_stack st :=
  ((λ o : option (list A), (λ l : list A, f <$> l) <$> o) <$> st).

Lemma merge_list_to_stack_fmap (st : list (option (list A))) : ∀ l : list A,
  merge_list_to_stack R2 (on_stack st) (f <$> l)
  = on_stack (merge_list_to_stack R1 st l).
Proof.
  induction st as [|[l'|] st IH]; intros l; cbn; [done| |done].
  by rewrite list_merge_fmap, IH.
Qed.

Lemma merge_stack_fmap (st : list (option (list A))) :
  merge_stack R2 (on_stack st) = f <$> merge_stack R1 st.
Proof.
  induction st as [|[l'|] st IH]; cbn; [done| |done].
  by rewrite IH, list_merge_fmap.
Qed.

Lemma merge_sort_aux_fmap (l : list A) : ∀ st : list (option (list A)),
  merge_sort_aux R2 (on_stack st) (f <$> l)
  = f <$> merge_sort_aux R1 st l.
Proof.
  induction l as [|x l IH]; intros st; cbn; [apply merge_stack_fmap|].
  rewrite <- IH. f_equal. apply (merge_list_to_stack_fmap st [x]).
Qed.

Lemma merge_sort_fmap (l : list A) :
  merge_sort R2 (f <$> l) = f <$> merge_sort R1 l.
Proof. apply (merge_sort_aux_fmap l []). Qed.
End SortMap.

Lemma filter_fmap_iff {A B} (f : A → B) (P1 : A → Prop) (P2 : B → Prop)
    `{!∀ x, Decision (P1 x)} `{!∀ y, Decision (P2 y)} (l : list A) :
  (∀ x, P1 x ↔ P2 (f x)) → filter P2 (f <$> l) = f <$> filter P1 l.
Proof.
  intros HP. induction l as [|x l IH]; [done|].
  rewrite fmap_cons, !filter_cons. destruct (decide (P1 x)) as [Hx|Hx].
  - rewrite decide_True by (by apply HP). by rewrite fmap_cons, IH.
  - by rewrite decide_False by (by rewrite <- HP).
Qed.

(** ** The clock only matters through differences *)

Section Shift.
Context (cfg : config) (net : network) (δ : Qc).

Lemma settle_time_shift r :
  settle_time net (shift_request δ r) = (settle_time net r + δ)%Qc.
Proof.
  unfold settle_time, shift_request. cbn.
  destruct (net (id r)); [done|]. ring.
Qed.

Lemma settling_order_shift (promises : list request) :
  settling_order net (shift_request δ <$> promises)
  = shift_request δ <$> settling_order net promises.
Proof.
  unfold settling_order.
  rewrite (filter_fmap_iff (shift_request δ) (settles net) (settles net))
    by done.
  apply merge_sort_fmap. intros r1 r2. unfold earlier.
  rewrite !settle_time_shift. apply Qcplus_le_mono_r.
Qed.

Lemma tally_after_shift rs t :
  tally_after net (shift_request δ <$> rs) t = tally_after net rs t.
Proof.
  unfold tally_after. revert t.
  induction rs as [|r rs IH]; intros t; cbn; [done|]. apply IH.
Qed.

Lemma settle_events_shift rs :
  settle_events net (shift_request δ <$> rs) = settle_events net rs.
Proof.
  unfold settle_events. rewrite <- list_fmap_compose. done.
Qed.

Lemma clock_after_shift rs w :
  clock_after net (shift_request δ <$> rs) (shift_world δ w)
  = shift_world δ (clock_after net rs w).
Proof.
  unfold clock_after. revert w.
  induction rs as [|r rs IH]; intros w; cbn; [done|].
  rewrite <- IH. f_equal. unfold shift_world, set_now. cbn.
  by rewrite settle_time_shift.
Qed.

Lemma Forall_settles_shift (promises : list request) :
  Forall (settles net) (shift_request δ <$> promises)
  ↔ Forall (settles net) promises.
Proof. by rewrite Forall_fmap. Qed.

Lemma await_all_shift promises t w :
  await_all net (shift_request δ <$> promises) t (shift_world δ w)
  = let '(o, w', tr) := await_all net promises t w in (o, shift_world δ w', tr).
Proof.
  rewrite !await_all_run. cbv zeta.
  rewrite settling_order_shift, tally_after_shift, settle_events_shift,
    clock_after_shift.
  destruct (decide (Forall _ promises)) as [H|H].
  - by rewrite decide_True by (by apply Forall_settles_shift).
  - by rewrite decide_False by (by rewrite Forall_settles_shift).
Qed.

Lemma batch_requests_shift w n :
  batch_requests (shift_world δ w) n = shift_request δ <$> batch_requests w n.
Proof. unfold batch_requests. by rewrite <- list_fmap_compose. Qed.

Lemma run_batch_shift port path count batch t w :
  run_batch cfg net port path count batch t (shift_world δ w)
  = let '(o, w', tr) := run_batch cfg net port path count batch t w in
    (o, shift_world δ w', tr).
Proof.
  rewrite !run_batch_run. cbv zeta. rewrite batch_requests_shift.
  change (set_issued ?n (shift_world δ w))
    with (shift_world δ (set_issued n w)).
  rewrite await_all_shift.
  by destruct (await_all _ _ _ _) as [[o w'] tr].
Qed.

Lemma batches_shift port path count n : ∀ k t w,
  for_loop k n (run_batch cfg net port path count) t (shift_world δ w)
  = let '(o, w', tr) := for_loop k n (run_batch cfg net port path count) t w in
    (o, shift_world δ w', tr).
Proof.
  induction n as [|n IH]; intros k t w; [done|].
  rewrite !for_loop_S, run_batch_shift.
  destruct (run_batch _ _ _ _ _ _ _ _) as [[[t1| |] w1] tr1]; [|done..].
  rewrite IH. by destruct (for_loop _ _ _ _ _) as [[o2 w2] tr2].
Qed.

Lemma run_batches_shift port path count t w :
  run_batches cfg net port path count t (shift_world δ w)
  = let '(o, w', tr) := run_batches cfg net port path count t w in
    (o, shift_world δ w', tr).
Proof.
  unfold run_batches. destruct (ceil_div _ _); [apply batches_shift|done..].
Qed.
End Shift.

(** ** Warmup *)

Lemma active_round_trip i port path ok :
  active [Dispatch i port path; Settle i ok] = 0%Z.
Proof. done. Qed.

Lemma prefix_two {A} (pre : list A) a b :
  pre `prefix_of` [a; b] → pre = [] ∨ pre = [a] ∨ pre = [a; b].
Proof.
  intros [k Hk]. destruct pre as [|x [|y [|z pre]]]; cbn in Hk.
  - by left.
  - injection Hk as <- _. by right; left.
  - injection Hk as <- <- _. by right; right.
  - by injection Hk.
Qed.

Section Warmup.
Context (cfg : config) (net : network) (port : nat) (path : string).

Local Abbreviation attempt :=
  (λ (_ : nat) (_ : unit),
     try_catch
       (makeRequest port path ≫= λ r, await net r ≫= λ _, mret ())
       (λ _, mret ())).

(** One warmup iteration: the request is dispatched and awaited; its
    rejection is swallowed. *)
Lemma warmup_step i u w :
  attempt i u w =
  let r := {| id := issued w; start := now w |} in
  match settled (net (issued w)) with
  | Pending =>
      (Hang, set_issued (S (issued w)) w, [Dispatch (issued w) port path])
  | p =>
      (Ret (), set_now (settle_time net r) (set_issued (S (issued w)) w),
       [Dispatch (issued w) port path; Settle (issued w) (fulfilled p)])
  end.
Proof.
  unfold try_catch. rewrite run_bind. cbn [makeRequest].
  rewrite run_bind. unfold await. cbn.
  by destruct (settled (net (issued w))).
Qed.

Lemma warmup_loop n : ∀ k u w o w' tr,
  for_loop k n attempt u w = (o, w', tr) →
  (∀ pre, pre `prefix_of` tr → (0 ≤ active pre ≤ 1)%Z) ∧
  (∀ e, o ≠ Throw e) ∧
  (o = Ret () →
     tr = sequential_trace net port path (issued w) n ∧
     active tr = 0%Z ∧
     issued w' = issued w + n ∧ server w' = server w).
Proof.
  induction n as [|n IH]; intros k u w o w' tr.
  - cbn. intros [= <- <- <-]. split_and!; [|done|].
    + intros pre ->%prefix_nil_inv. unfold active. cbn. lia.
    + intros _. split_and!; [done|done|lia|done].
  - rewrite for_loop_S, (warmup_step k u). cbv zeta.
    destruct (settled (net (issued w))) as [|res|err] eqn:Hp.
    + intros [= <- <- <-]. split_and!; try done.
      intros pre Hp'. apply (prefix_app_r _ _ [Settle 0 true]) in Hp'.
      apply prefix_two in Hp' as [->|[->| ->]]; unfold active; cbn; lia.
    + destruct (for_loop _ _ _ _ _) as [[o2 w2] tr2] eqn:Hl.
      apply IH in Hl as (Hpre & Hthrow & Hret). intros [= <- <- <-].
      split_and!; [|done|].
      * intros pre Hp'.
        change (pre `prefix_of` [Dispatch (issued w) port path;
                                 Settle (issued w) true] ++ tr2) in Hp'.
        apply prefix_app_inv in Hp' as [Hp'|(pre2 & -> & Hp')].
        -- apply prefix_two in Hp' as [->|[->| ->]]; unfold active; cbn; lia.
        -- rewrite active_app, active_round_trip. specialize (Hpre _ Hp').
           lia.
      * intros Ho. destruct (Hret Ho) as (-> & Hact & Hi & Hs). cbn in Hi, Hs.
        unfold sequential_trace. cbn. rewrite Hp. split_and!; [done| |lia|done].
        unfold sequential_trace in Hact. cbn in Hact.
        change (active ([Dispatch (issued w) port path;
                         Settle (issued w) true] ++
                        flat_map (λ i, [Dispatch i port path;
                                        Settle i (fulfilled (settled (net i)))])
                          (seq (S (issued w)) n)) = 0%Z).
        by rewrite active_app, Hact, active_round_trip.
    + destruct (for_loop _ _ _ _ _) as [[o2 w2] tr2] eqn:Hl.
      apply IH in Hl as (Hpre & Hthrow & Hret). intros [= <- <- <-].
      split_and!; [|done|].
      * intros pre Hp'.
        change (pre `prefix_of` [Dispatch (issued w) port path;
                                 Settle (issued w) false] ++ tr2) in Hp'.
        apply prefix_app_inv in Hp' as [Hp'|(pre2 & -> & Hp')].
        -- apply prefix_two in Hp' as [->|[->| ->]]; unfold active; cbn; lia.
        -- rewrite active_app, active_round_trip. specialize (Hpre _ Hp').
           lia.
      * intros Ho. destruct (Hret Ho) as (-> & Hact & Hi & Hs). cbn in Hi, Hs.
        unfold sequential_trace. cbn. rewrite Hp. split_and!; [done| |lia|done].
        unfold sequential_trace in Hact. cbn in Hact.
        change (active ([Dispatch (issued w) port path;
                         Settle (issued w) false] ++
                        flat_map (λ i, [Dispatch i port path;
                                        Settle i (fulfilled (settled (net i)))])
                          (seq (S (issued w)) n)) = 0%Z).
        by rewrite active_app, Hact, active_round_trip.
Qed.

Lemma warmup_run w o w' tr :
  warmup cfg net port path w = (o, w', tr) →
  (∀ pre, pre `prefix_of` tr → (0 ≤ active pre ≤ 1)%Z) ∧
  (∀ e, o ≠ Throw e) ∧
  (o = Ret () →
     tr = sequential_trace net port path (issued w) (WARMUP_REQUESTS cfg) ∧
     active tr = 0%Z ∧
     issued w' = issued w + WARMUP_REQUESTS cfg ∧ server w' = server w).
Proof. apply warmup_loop. Qed.
End Warmup.

Lemma dispatched_sequential_trace net port path n : ∀ first,
  dispatched (sequential_trace net port path first n) = seq first n.
Proof.
  unfold sequential_trace, dispatched.
  induction n as [|n IH]; intros first; cbn; [done|]. f_equal. apply IH.
Qed.

Lemma settled_ids_sequential_trace net port path n : ∀ first,
  settled_ids (sequential_trace net port path first n) = seq first n.
Proof.
  unfold sequential_trace, settled_ids.
  induction n as [|n IH]; intros first; cbn; [done|]. f_equal. apply IH.
Qed.

Lemma world_eq w1 w2 :
  now w1 = now w2 → issued w1 = issued w2 → server w1 = server w2 → w1 = w2.
Proof. destruct w1, w2. cbn. by intros -> -> ->. Qed.

(** What [report] returns or throws does not depend on the world. *)
Lemma report_outcome name count m w w' :
  (report name count m w).1.1 = (report name count m w').1.1.
Proof.
  destruct m as [t totalTime]. unfold report.
  by destruct (calculate_statistics (sort_times (times t)))
    as [avg [mn|] [mx|] [a|] [b|] [c|]].
Qed.

(** The measurement after a completed warmup, compared with the same
    measurement started directly. *)
Lemma run_batches_after_warmup cfg net port path count w w1 tr1 :
  warmup cfg net port path w = (Ret (), w1, tr1) →
  let w0 := set_issued (issued w + WARMUP_REQUESTS cfg) w in
  let δ := (now w1 - now w0)%Qc in
  run_batches cfg net port path count {| times := []; errors := 0 |} w1
  = let '(o, w', tr) :=
      run_batches cfg net port path count {| times := []; errors := 0 |} w0 in
    (o, shift_world δ w', tr).
Proof.
  intros Hw w0 δ. apply warmup_run in Hw as (_ & _ & Hret).
  destruct (Hret eq_refl) as (_ & _ & Hi & Hs).
  rewrite <- run_batches_shift. f_equal.
  apply world_eq; cbn; [|done..]. unfold δ. cbn. ring.
Qed.

(** C9: a completed warmup issued exactly WARMUP_REQUESTS requests one
    after the other (never more than one active, each settled before the
    next is dispatched), never throws, and leaves no mark on the result:
    [benchmarkRoute] returns what it returns without any warmup when its
    measured requests meet the same fates. *)
Theorem warmup_sequential_and_discarded
    cfg net port path name count w o1 w1 tr1 :
  warmup cfg net port path w = (o1, w1, tr1) →
  (∀ pre, pre `prefix_of` tr1 → (0 ≤ active pre ≤ 1)%Z) ∧
  (∀ e, o1 ≠ Throw e) ∧
  (o1 = Ret () →
     tr1 = sequential_trace net port path (issued w) (WARMUP_REQUESTS cfg) ∧
     length (dispatched tr1) = WARMUP_REQUESTS cfg ∧
     (benchmarkRoute cfg net port path name count w).1.1
     = (benchmarkRoute (no_warmup cfg) net port path name count
          (set_issued (issued w + WARMUP_REQUESTS cfg) w)).1.1).
Proof.
  intros Hw. pose proof (warmup_run _ _ _ _ _ _ _ _ Hw) as (Hpre & Hthrow & Hret).
  split_and!; [done..|]. intros ->. destruct (Hret eq_refl) as (Htr & _).
  split_and!; [done| |].
  - by rewrite Htr, dispatched_sequential_trace, length_seq.
  - unfold benchmarkRoute. rewrite !run_bind, !measure_run. cbv zeta.
    rewrite Hw. change (warmup (no_warmup cfg) net port path ?w0)
      with (Ret (), w0, @nil event).
    change (run_batches (no_warmup cfg)) with (run_batches cfg).
    rewrite (run_batches_after_warmup _ _ _ _ _ _ _ _ Hw). cbv zeta.
    destruct (run_batches _ _ _ _ _ _ _) as [[[t| |] w2] tr2]; [|done..].
    set (w0 := set_issued (issued w + WARMUP_REQUESTS cfg) w).
    replace (now (shift_world (now w1 - now w0) w2) - now w1)%Qc
      with (now w2 - now w0)%Qc by (cbn; ring).
    pose proof (report_outcome name count (t, (now w2 - now w0)%Qc)
                  (shift_world (now w1 - now w0) w2) w2) as Hrep.
    destruct (report _ _ _ _) as [[o3 w3] tr3].
    destruct (report _ _ _ _) as [[o4 w4] tr4]. exact Hrep.
Qed.

Lemma warmup_sequential_and_discarded_witness :
  ∃ w1 tr1,
    warmup demo_cfg demo_net 8080 "/simple" boot = (Ret (), w1, tr1) ∧
    length (dispatched tr1) = WARMUP_REQUESTS demo_cfg.
Proof.
  eexists _, _. split; [vm_compute; reflexivity|].
  edestruct (warmup_sequential_and_discarded demo_cfg demo_net 8080
               "/simple" "Simple Route" 5 boot)
    as (_ & _ & Hret); [vm_compute; reflexivity|].
  destruct (Hret eq_refl) as (_ & Hn & _). exact Hn.
Defined.

(** ** What a scenario run can do to the world *)

Section Quiet.
Context (P : event → Prop).

Lemma quiet_ret {A} (a : A) : quiet P (mret a : M A).
Proof. intros w o w' tr [= <- <- <-]. by split. Qed.

Lemma quiet_throw {A} e : quiet P (throw e : M A).
Proof. intros w o w' tr [= <- <- <-]. by split. Qed.

Lemma quiet_hang {A} : quiet P (hang : M A).
Proof. intros w o w' tr [= <- <- <-]. by split. Qed.

Lemma quiet_emit e : P e → quiet P (emit e).
Proof. intros He w o w' tr [= <- <- <-]. split; [done|]. by repeat constructor. Qed.

Lemma quiet_bind {A B} (m : M A) (k : A → M B) :
  quiet P m → (∀ a, quiet P (k a)) → quiet P (m ≫= k).
Proof.
  intros Hm Hk w o w' tr. rewrite run_bind.
  destruct (m w) as [[o1 w1] t1] eqn:E1.
  destruct (Hm _ _ _ _ E1) as [Hs1 Ht1].
  destruct o1 as [a| |]; [|by intros [= <- <- <-]..].
  destruct (k a w1) as [[o2 w2] t2] eqn:E2.
  destruct (Hk a _ _ _ _ E2) as [Hs2 Ht2]. intros [= <- <- <-].
  split; [congruence|]. by apply Forall_app.
Qed.

Lemma quiet_try_catch {A} (m : M A) (h : js_error → M A) :
  quiet P m → (∀ e, quiet P (h e)) → quiet P (try_catch m h).
Proof.
  intros Hm Hh w o w' tr. unfold try_catch.
  destruct (m w) as [[o1 w1] t1] eqn:E1.
  destruct (Hm _ _ _ _ E1) as [Hs1 Ht1].
  destruct o1 as [a|e|]; [by intros [= <- <- <-]| |by intros [= <- <- <-]].
  destruct (h e w1) as [[o2 w2] t2] eqn:E2.
  destruct (Hh e _ _ _ _ E2) as [Hs2 Ht2]. intros [= <- <- <-].
  split; [congruence|]. by apply Forall_app.
Qed.

Lemma quiet_for_loop {St} n (body : nat → St → M St) :
  (∀ i s, quiet P (body i s)) → ∀ k s, quiet P (for_loop k n body s).
Proof.
  intros Hbody. induction n as [|n IH]; intros k s.
  - apply (quiet_ret s).
  - apply (quiet_bind (body k s)); [apply Hbody|]. intros s'. apply IH.
Qed.
End Quiet.

Section QuietScenario.
Context (cfg : config) (net : network).

Lemma quiet_makeRequest port path : quiet scenario_event (makeRequest port path).
Proof. intros w o w' tr [= <- <- <-]. split; [done|]. by repeat constructor. Qed.

Lemma quiet_await r : quiet scenario_event (await net r).
Proof.
  intros w o w' tr. unfold await.
  destruct (settled _); intros [= <- <- <-]; split; try done;
    by repeat constructor.
Qed.

Lemma quiet_performance_now : quiet scenario_event performance_now.
Proof. intros w o w' tr [= <- <- <-]. by split. Qed.

Lemma quiet_toFixed x : quiet scenario_event (toFixed x).
Proof. destruct x; [apply quiet_ret|apply quiet_throw]. Qed.

Lemma quiet_warmup port path : quiet scenario_event (warmup cfg net port path).
Proof.
  apply quiet_for_loop. intros _ _. apply quiet_try_catch.
  - apply quiet_bind; [apply quiet_makeRequest|]. intros r.
    apply quiet_bind; [apply quiet_await|]. intros _. apply quiet_ret.
  - intros _. apply quiet_ret.
Qed.

Lemma quiet_run_batch port path count batch t :
  quiet scenario_event (run_batch cfg net port path count batch t).
Proof.
  intros w o w' tr H. apply run_batch_shape in H. cbv zeta in H.
  destruct H as (rs & _ & _ & Hs & Hshape). split; [done|].
  assert (Forall scenario_event
            (dispatch_events port path w
               (Nat.min (CONCURRENT_REQUESTS cfg)
                        (count - batch * CONCURRENT_REQUESTS cfg)))) as Hd.
  { apply Forall_fmap, Forall_true. done. }
  assert (Forall scenario_event (settle_events net rs)) as Hst.
  { apply Forall_fmap, Forall_true. done. }
  destruct Hshape as [[_ ->]|(t' & _ & _ & ->)];
    rewrite ?Forall_app; split_and!; try done. by repeat constructor.
Qed.

Lemma quiet_run_batches port path count t :
  quiet scenario_event (run_batches cfg net port path count t).
Proof.
  unfold run_batches. destruct (ceil_div _ _).
  - apply quiet_for_loop. intros. apply quiet_run_batch.
  - apply quiet_hang.
  - apply quiet_ret.
Qed.

Lemma quiet_measure port path name count :
  quiet scenario_event (measure cfg net port path name count).
Proof.
  unfold measure.
  repeat first
    [ apply quiet_bind; [|intros ?]
    | apply quiet_emit; done
    | apply quiet_warmup
    | apply quiet_run_batches
    | apply quiet_performance_now
    | apply quiet_ret ].
Qed.

Lemma quiet_report name count m : quiet scenario_event (report name count m).
Proof.
  destruct m as [t totalTime]. unfold report.
  repeat first
    [ apply quiet_bind; [|intros ?]
    | apply quiet_emit; done
    | apply quiet_toFixed
    | apply quiet_ret ].
Qed.

Lemma quiet_benchmarkRoute port path name count :
  quiet scenario_event (benchmarkRoute cfg net port path name count).
Proof.
  apply quiet_bind; [apply quiet_measure|]. intros m. apply quiet_report.
Qed.

Lemma quiet_run_scenarios port :
  quiet scenario_event (run_scenarios cfg net port).
Proof.
  unfold run_scenarios.
  repeat first
    [ apply quiet_bind; [apply quiet_benchmarkRoute|intros ?]
    | apply quiet_ret ].
Qed.
End QuietScenario.

(** ** runBenchmarks *)

Section RunFacts.
Context (cfg : config) (net : network).

Lemma for_each_rows (rs : list Result.t) w :
  for_each rs (λ result,
    console_log (SummaryRow (Result.name result) (Result.reqPerSec result)
                   (Latency.avg (Result.latency result)))) w
  = (Ret (), w,
     (λ r, Stdout (SummaryRow (Result.name r) (Result.reqPerSec r)
                     (Latency.avg (Result.latency r)))) <$> rs).
Proof.
  induction rs as [|r rs IH]; [done|].
  cbn [for_each]. rewrite run_bind. cbn [console_log emit]. by rewrite IH.
Qed.

Lemma print_summary_run rs w :
  print_summary rs w = (Ret (), w, summary_lines rs).
Proof.
  unfold print_summary. rewrite run_bind. cbn [console_log emit].
  rewrite run_bind. cbn [console_log emit]. by rewrite for_each_rows.
Qed.

Lemma print_impact_run w :
  print_impact w
  = (Ret (), w, [Stdout (Text "OPTIMIZATION IMPACT");
                 Stdout (Text "Optimizations Applied:");
                 Stdout (Text "Expected Performance Gains:")]).
Proof. reflexivity. Qed.

Lemma teardown_run w :
  (server_close ≫= λ _, console_log (Text "Benchmark complete!")) w
  = (Ret (),
     set_server (match server w with Listening _ => Closed | s => s end) w,
     [ServerClose; Stdout (Text "Benchmark complete!")]).
Proof. reflexivity. Qed.


(** The run when the server listens on [p], by what the scenarios do. *)
Lemma runBenchmarks_listening p :
  runBenchmarks cfg net (Some p) boot =
  let head := [Stdout (Text "Express Performance Benchmark Suite");
               Stdout (ConfigLines cfg); ServerListen p;
               Stdout (ListeningOn p)] in
  let tail := [ServerClose; Stdout (Text "Benchmark complete!")] in
  let impact := [Stdout (Text "OPTIMIZATION IMPACT");
                 Stdout (Text "Optimizations Applied:");
                 Stdout (Text "Expected Performance Gains:")] in
  match run_scenarios cfg net p (set_server (Listening p) boot) with
  | (Ret rs, w1, t1) =>
      (Ret (), set_server Closed w1,
       head ++ t1 ++ summary_lines rs ++ impact ++ tail)
  | (Throw e, w1, t1) =>
      (Ret (), set_server Closed w1,
       head ++ t1 ++ Stderr (BenchmarkError e) :: tail)
  | (Hang, w1, t1) => (Hang, w1, head ++ t1)
  end.
Proof.
  unfold runBenchmarks. rewrite run_bind. cbn [console_log emit].
  rewrite run_bind. cbn [console_log emit]. rewrite run_bind. cbn [listen].
  rewrite run_bind. cbn [address_port set_server server boot].
  rewrite run_bind. cbn [console_log emit].
  unfold try_finally, try_catch. rewrite run_bind.
  destruct (run_scenarios cfg net p _) as [[o1 w1] t1] eqn:Hrun.
  pose proof (quiet_run_scenarios cfg net p _ _ _ _ Hrun) as [Hs _].
  cbn in Hs.
  destruct o1 as [rs|e|].
  - rewrite run_bind, print_summary_run, print_impact_run. cbn iota beta.
    rewrite teardown_run, Hs. cbn. do 5 f_equal.
    rewrite <- app_assoc. cbn. by rewrite <- app_assoc.
  - cbn [console_error emit]. cbn iota beta.
    rewrite teardown_run, Hs. cbn. do 5 f_equal.
    by rewrite <- app_assoc.
  - done.
Qed.
End RunFacts.

(** ** Exit status, summary and teardown *)



(** C6: when a fault aborts the scenario list, whatever was collected
    before, no line of the summary table is printed; the fault is reported
    on the error channel. *)
Theorem no_partial_summary cfg net p e w1 t1 :
  run_scenarios cfg net p (set_server (Listening p) boot) = (Throw e, w1, t1) →
  let '(st, w, tr) := main cfg net (Some p) boot in
  Forall (λ ev, ¬ summary_line ev) tr ∧ Stderr (BenchmarkError e) ∈ tr.
Proof.
  intros Hrun. unfold main. rewrite runBenchmarks_listening. cbv zeta.
  rewrite Hrun. split.
  - apply quiet_run_scenarios in Hrun as [_ Ht1].
    repeat (apply Forall_cons; split; [by intros []|]).
    apply Forall_app. split.
    + eapply Forall_impl; [done|]. intros ev Hev Hsum.
      destruct ev as [| |l| | | | |]; try done. by destruct l.
    + by repeat (apply Forall_cons; split; [by intros []|]).
  - do 4 apply elem_of_cons, or_intror. apply elem_of_mid.
Qed.

Lemma no_partial_summary_witness :
  ∃ e w1 t1,
    run_scenarios demo_cfg demo_outage 8080 (set_server (Listening 8080) boot)
    = (Throw e, w1, t1) ∧
    omap (λ ev, match ev with
                | Stdout (ErrorsLine n) => Some n
                | _ => None
                end) t1 = [0] ∧
    Forall (λ ev, ¬ summary_line ev)
      (main demo_cfg demo_outage (Some 8080) boot).2.
Proof.
  eexists _, _, _. split; [vm_compute; reflexivity|].
  split; [vm_compute; reflexivity|].
  pose proof (no_partial_summary demo_cfg demo_outage 8080) as H.
  edestruct (main demo_cfg demo_outage (Some 8080) boot) as [[st w] tr] eqn:Hm.
  edestruct H as [Hsum _]; [vm_compute; reflexivity|]. exact Hsum.
Defined.

(** C7: whether every scenario completes or a fault is raised mid-run,
    the run ends with the server closed: [server.close()] is the last
    action but one of the trace.  While a request never settles the run
    does not end. *)
Theorem server_closed_on_every_exit cfg net p :
  let '(st, w, tr) := main cfg net (Some p) boot in
  match (run_scenarios cfg net p (set_server (Listening p) boot)).1.1 with
  | Ret _ | Throw _ =>
      st = Exited 0 ∧ server w = Closed ∧
      ∃ pre, tr = pre ++ [ServerClose; Stdout (Text "Benchmark complete!")] ∧
             ServerListen p ∈ pre
  | Hang => st = NeverExits
  end.
Proof.
  unfold main. rewrite runBenchmarks_listening. cbv zeta.
  destruct (run_scenarios _ _ _ _) as [[[rs|e|] w1] t1]; cbv iota beta;
    [| |done].
  - split_and!; [done..|].
    eexists ([_; _; _; _] ++ t1 ++ summary_lines rs ++ [_; _; _]). split.
    + by rewrite <- !app_assoc.
    + apply elem_of_app. left.
      do 2 apply elem_of_cons, or_intror. apply elem_of_cons. by left.
  - split_and!; [done..|].
    eexists ([_; _; _; _] ++ t1 ++ [Stderr (BenchmarkError e)]). split.
    + by rewrite <- !app_assoc.
    + apply elem_of_app. left.
      do 2 apply elem_of_cons, or_intror. apply elem_of_cons. by left.
Qed.

(** * Further properties of the statistics *)

Lemma StronglySorted_lookup_le (l : list Qc) :
  StronglySorted Qcle l →
  ∀ i j a b, i ≤ j → l !! i = Some a → l !! j = Some b → (a <= b)%Qc.
Proof.
  induction 1 as [|x l Hl IH Hx]; intros i j a b Hij Ha Hb; [done|].
  destruct i as [|i], j as [|j]; cbn in Ha, Hb.
  - injection Ha as <-. injection Hb as <-. apply Qcle_refl.
  - injection Ha as <-. rewrite Forall_forall in Hx. apply Hx.
    by eapply list_elem_of_lookup_2.
  - lia.
  - eapply IH; [|done..]. lia.
Qed.

Lemma sort_times_strongly_sorted l : StronglySorted Qcle (sort_times l).
Proof.
  apply Sorted_StronglySorted; [|apply sort_times_sorted].
  intros x y z. apply Qcle_trans.
Qed.

Lemma js_index_lookup {A} (arr : list A) (i : Z) x :
  js_index arr i = Some x → (0 ≤ i)%Z ∧ arr !! Z.to_nat i = Some x.
Proof. unfold js_index. by case_decide. Qed.

Lemma floor_mul_mono n p q :
  (p <= q)%Q → (floor_mul n p ≤ floor_mul n q)%Z.
Proof.
  intros Hpq. unfold floor_mul. apply Qfloor_resp_le.
  rewrite !(Qmult_comm (inject_Z _)). apply Qmult_le_compat_r; [done|].
  change 0%Q with (inject_Z 0). rewrite <- Zle_Qle. lia.
Qed.

Lemma first_and_last_of_sorted (latencies : list Qc) :
  latencies ≠ [] →
  ∃ mn mx,
    Latency.min (calculate_statistics (sort_times latencies)) = Some mn ∧
    Latency.max (calculate_statistics (sort_times latencies)) = Some mx ∧
    sort_times latencies !! 0 = Some mn ∧
    sort_times latencies !! (length latencies - 1) = Some mx.
Proof.
  intros Hne. set (sorted := sort_times latencies).
  assert (length sorted = length latencies) as Hlen
    by apply sort_times_length.
  assert (0 < length latencies) as Hn
    by (destruct latencies; [done|cbn; lia]).
  destruct (js_index_in_range sorted 0) as (mn & Hmn & _); [lia|].
  destruct (js_index_in_range sorted (Z.of_nat (length sorted) - 1))
    as (mx & Hmx & _); [lia|].
  exists mn, mx. split_and!; [done..| |].
  - by apply js_index_lookup in Hmn as [_ Hmn].
  - apply js_index_lookup in Hmx as [_ Hmx]. rewrite Hlen in Hmx.
    by replace (Z.to_nat (Z.of_nat (length latencies) - 1))
      with (length latencies - 1) in Hmx by lia.
Qed.

Lemma sorted_between (latencies : list Qc) mn mx :
  sort_times latencies !! 0 = Some mn →
  sort_times latencies !! (length latencies - 1) = Some mx →
  ∀ x, x ∈ latencies → (mn <= x)%Qc ∧ (x <= mx)%Qc.
Proof.
  intros Hmn Hmx x Hx. rewrite <- (sort_times_perm latencies) in Hx.
  apply list_elem_of_lookup_1 in Hx as [k Hk].
  pose proof (lookup_lt_Some _ _ _ Hk) as Hklt.
  rewrite sort_times_length in Hklt.
  pose proof (sort_times_strongly_sorted latencies) as Hsorted.
  split.
  - eapply (StronglySorted_lookup_le _ Hsorted 0 k); [lia|done..].
  - eapply (StronglySorted_lookup_le _ Hsorted k); [|done..]. lia.
Qed.

Lemma statistics_defined (latencies : list Qc) :
  latencies ≠ [] →
  let stats := calculate_statistics (sort_times latencies) in
  is_Some (Latency.min stats) ∧ is_Some (Latency.max stats) ∧
  is_Some (Latency.p50 stats) ∧ is_Some (Latency.p95 stats) ∧
  is_Some (Latency.p99 stats).
Proof.
  intros Hne stats.
  destruct (first_and_last_of_sorted latencies Hne)
    as (mn & mx & Hmn & Hmx & _).
  set (sorted := sort_times latencies). set (n := length sorted).
  assert (0 < n) as Hn.
  { unfold n, sorted. rewrite sort_times_length.
    destruct latencies; [done|cbn; lia]. }
  pose proof (floor_mul_range n 0.5 ltac:(done) ltac:(done) Hn) as H50.
  pose proof (floor_mul_range n 0.95 ltac:(done) ltac:(done) Hn) as H95.
  pose proof (floor_mul_range n 0.99 ltac:(done) ltac:(done) Hn) as H99.
  destruct (js_index_in_range sorted _ H50) as (a & Ha & _).
  destruct (js_index_in_range sorted _ H95) as (b & Hb & _).
  destruct (js_index_in_range sorted _ H99) as (c & Hc & _).
  unfold stats. rewrite Hmn, Hmx. split_and!; [done|done|..];
    unfold calculate_statistics; cbn [Latency.p50 Latency.p95 Latency.p99];
    fold sorted; fold n; by eexists.
Qed.

(** The reported minimum and maximum are the least and the greatest of
    the collected latencies. *)
Theorem min_max_are_extremes (latencies : list Qc) :
  latencies ≠ [] →
  let stats := calculate_statistics (sort_times latencies) in
  ∃ mn mx,
    Latency.min stats = Some mn ∧ Latency.max stats = Some mx ∧
    mn ∈ latencies ∧ mx ∈ latencies ∧
    ∀ x, x ∈ latencies → (mn <= x)%Qc ∧ (x <= mx)%Qc.
Proof.
  intros Hne stats.
  destruct (first_and_last_of_sorted latencies Hne)
    as (mn & mx & Hmn & Hmx & Hfirst & Hlast).
  exists mn, mx. split_and!; [done|done| | |].
  - rewrite <- (sort_times_perm latencies). by eapply list_elem_of_lookup_2.
  - rewrite <- (sort_times_perm latencies). by eapply list_elem_of_lookup_2.
  - by apply sorted_between.
Qed.

Lemma min_max_are_extremes_witness :
  let latencies := [Q2Qc 7; Q2Qc 3; Q2Qc 5] in
  latencies ≠ [] ∧
  ∃ mn mx,
    Latency.min (calculate_statistics (sort_times latencies)) = Some mn ∧
    Latency.max (calculate_statistics (sort_times latencies)) = Some mx ∧
    mn ∈ latencies ∧ mx ∈ latencies ∧
    ∀ x, x ∈ latencies → (mn <= x)%Qc ∧ (x <= mx)%Qc.
Proof.
  split; [done|]. apply (min_max_are_extremes [Q2Qc 7; Q2Qc 3; Q2Qc 5]). done.
Defined.

(** The percentiles are ordered and lie between the minimum and the
    maximum: min <= p50 <= p95 <= p99 <= max. *)
Theorem percentiles_are_ordered (latencies : list Qc) :
  latencies ≠ [] →
  let stats := calculate_statistics (sort_times latencies) in
  ∃ mn a b c mx,
    Latency.min stats = Some mn ∧ Latency.p50 stats = Some a ∧
    Latency.p95 stats = Some b ∧ Latency.p99 stats = Some c ∧
    Latency.max stats = Some mx ∧
    (mn <= a)%Qc ∧ (a <= b)%Qc ∧ (b <= c)%Qc ∧ (c <= mx)%Qc.
Proof.
  intros Hne stats.
  set (sorted := sort_times latencies). set (n := length sorted).
  assert (0 < n) as Hn.
  { unfold n, sorted. rewrite sort_times_length.
    destruct latencies; [done|cbn; lia]. }
  pose proof (floor_mul_range n 0.5 ltac:(done) ltac:(done) Hn) as H50.
  pose proof (floor_mul_range n 0.95 ltac:(done) ltac:(done) Hn) as H95.
  pose proof (floor_mul_range n 0.99 ltac:(done) ltac:(done) Hn) as H99.
  pose proof (floor_mul_mono n 0.5 0.95 ltac:(done)) as H1.
  pose proof (floor_mul_mono n 0.95 0.99 ltac:(done)) as H2.
  destruct (js_index_in_range sorted 0) as (mn & Hmn & _); [lia|].
  destruct (js_index_in_range sorted _ H50) as (a & Ha & _).
  destruct (js_index_in_range sorted _ H95) as (b & Hb & _).
  destruct (js_index_in_range sorted _ H99) as (c & Hc & _).
  destruct (js_index_in_range sorted (Z.of_nat n - 1)) as (mx & Hmx & _);
    [lia|].
  exists mn, a, b, c, mx. split_and!; try done.
  all: pose proof (sort_times_strongly_sorted latencies) as Hsorted.
  all: apply js_index_lookup in Hmn as [_ Hmn], Ha as [_ Ha],
         Hb as [_ Hb], Hc as [_ Hc], Hmx as [_ Hmx].
  - eapply (StronglySorted_lookup_le _ Hsorted); [|exact Hmn|exact Ha]. lia.
  - eapply (StronglySorted_lookup_le _ Hsorted); [|exact Ha|exact Hb]. lia.
  - eapply (StronglySorted_lookup_le _ Hsorted); [|exact Hb|exact Hc]. lia.
  - eapply (StronglySorted_lookup_le _ Hsorted); [|exact Hc|exact Hmx]. lia.
Qed.

Lemma percentiles_are_ordered_witness :
  let latencies := [Q2Qc 7; Q2Qc 3; Q2Qc 5] in
  latencies ≠ [] ∧
  ∃ mn a b c mx,
    Latency.min (calculate_statistics (sort_times latencies)) = Some mn ∧
    Latency.p50 (calculate_statistics (sort_times latencies)) = Some a ∧
    Latency.p95 (calculate_statistics (sort_times latencies)) = Some b ∧
    Latency.p99 (calculate_statistics (sort_times latencies)) = Some c ∧
    Latency.max (calculate_statistics (sort_times latencies)) = Some mx ∧
    (mn <= a)%Qc ∧ (a <= b)%Qc ∧ (b <= c)%Qc ∧ (c <= mx)%Qc.
Proof.
  split; [done|]. apply (percentiles_are_ordered [Q2Qc 7; Q2Qc 3; Q2Qc 5]). done.
Defined.

Lemma floor_mul_99 n :
  1 ≤ n ≤ 100 → floor_mul n 0.99 = (Z.of_nat n - 1)%Z.
Proof.
  intros Hn. change (floor_mul n 0.99) with (Z.of_nat n * 99 / 100)%Z.
  symmetry. apply Z.div_unique with (r := (100 - Z.of_nat n)%Z); lia.
Qed.

(** With at most 100 samples the 99th percentile is the maximum: the index
    floor(n*0.99) is n-1. *)
Theorem p99_is_max_up_to_100_samples (latencies : list Qc) :
  1 ≤ length latencies ≤ 100 →
  let stats := calculate_statistics (sort_times latencies) in
  Latency.p99 stats = Latency.max stats ∧ is_Some (Latency.p99 stats).
Proof.
  intros Hn stats. unfold stats, calculate_statistics.
  cbn [Latency.p99 Latency.max].
  rewrite sort_times_length, floor_mul_99 by done. split; [done|].
  destruct (js_index_in_range (sort_times latencies)
              (Z.of_nat (length latencies) - 1)) as (x & -> & _); [|done].
  rewrite sort_times_length. lia.
Qed.

Lemma p99_is_max_up_to_100_samples_witness :
  let latencies := of_nat <$> [40; 10; 30; 20; 50] in
  1 ≤ length latencies ≤ 100 ∧
  Latency.p99 (calculate_statistics (sort_times latencies)) = Some (of_nat 50).
Proof.
  split; [cbn; lia|].
  destruct (p99_is_max_up_to_100_samples (of_nat <$> [40; 10; 30; 20; 50]))
    as [-> _]; [cbn; lia|].
  vm_compute. reflexivity.
Defined.

Lemma of_nat_Qc_of_Z n : of_nat n = Qc_of_Z (Z.of_nat n).
Proof. apply Qc_is_canon. cbn. apply Qred_correct. Qed.



Lemma of_nat_pos n : 0 < n → (0 < of_nat n)%Qc.
Proof.
  intros Hn. rewrite of_nat_Qc_of_Z, <- Z2Qc_inj_0, <- Z2Qc_inj_lt. lia.
Qed.





(** * Further properties of a scenario run *)

Section Outcomes.
Context (cfg : config) (net : network).

Lemma run_batches_never_throw port path count t w o w' tr :
  run_batches cfg net port path count t w = (o, w', tr) → ∀ e, o ≠ Throw e.
Proof.
  unfold run_batches. destruct (ceil_div _ _).
  - apply batches_never_throw.
  - by intros [= <- <- <-].
  - by intros [= <- <- <-].
Qed.

(** Rejected requests are counted, never propagated: whatever the network
    does, the warmup and the batches do not throw. *)
Theorem request_failures_never_abort port path name count w :
  ∀ e, (measure cfg net port path name count w).1.1 ≠ Throw e.
Proof.
  intros e. rewrite measure_run. cbv zeta.
  destruct (warmup cfg net port path w) as [[o1 w1] tr1] eqn:Hw.
  pose proof (warmup_run _ _ _ _ _ _ _ _ Hw) as (_ & Hthrow & _).
  destruct o1 as [[]|e1|]; [|by destruct (Hthrow e1)|done].
  destruct (run_batches _ _ _ _ _ _ _) as [[o2 w2] tr2] eqn:Hb.
  pose proof (run_batches_never_throw _ _ _ _ _ _ _ _ Hb) as Hthrow2.
  destruct o2 as [t|e2|]; [done|by destruct (Hthrow2 e2)|done].
Qed.

Lemma report_some_samples name count t totalTime w :
  times t ≠ [] →
  ∃ tr,
    report name count (t, totalTime) w
    = (Ret {| Result.name := name; Result.count := count;
              Result.totalTime := totalTime;
              Result.reqPerSec :=
                js_mul (js_div (of_nat count) totalTime) (of_nat 1000);
              Result.latency := calculate_statistics (sort_times (times t));
              Result.errors := errors t |}, w, tr).
Proof.
  intros Hne.
  destruct (statistics_defined (times t) Hne)
    as ([mn Hmn] & [mx Hmx] & [a Ha] & [b Hb] & [c Hc]).
  unfold report. revert Hmn Ha Hb Hc Hmx.
  destruct (calculate_statistics (sort_times (times t)))
    as [avg [mn'|] [mx'|] [a'|] [b'|] [c'|]]; cbn; try done.
  intros _ _ _ _ _. by eexists.
Qed.

(** Once the requests have been measured, [benchmarkRoute] returns a
    result exactly when at least one of them succeeded; with no latency
    sample it throws the [TypeError] of [min.toFixed]. *)
Theorem result_iff_some_success port path name count w t totalTime w1 tr1 :
  measure cfg net port path name count w = (Ret (t, totalTime), w1, tr1) →
  (times t = [] →
     (benchmarkRoute cfg net port path name count w).1.1
     = Throw toFixed_of_undefined) ∧
  (times t ≠ [] →
     (benchmarkRoute cfg net port path name count w).1.1
     = Ret {| Result.name := name; Result.count := count;
              Result.totalTime := totalTime;
              Result.reqPerSec :=
                js_mul (js_div (of_nat count) totalTime) (of_nat 1000);
              Result.latency := calculate_statistics (sort_times (times t));
              Result.errors := errors t |}).
Proof.
  intros Hm. unfold benchmarkRoute. rewrite run_bind, Hm. split.
  - intros Hnil. destruct t as [ts errs]. cbn in Hnil. subst ts.
    by rewrite report_no_samples.
  - intros Hne.
    destruct (report_some_samples name count t totalTime w1 Hne) as [tr ->].
    done.
Qed.
End Outcomes.

Lemma result_iff_some_success_witness :
  ∃ t totalTime w1 tr1 r,
    measure demo_cfg demo_net 8080 "/simple" "Simple Route" 5 boot
    = (Ret (t, totalTime), w1, tr1) ∧
    (benchmarkRoute demo_cfg demo_net 8080 "/simple" "Simple Route" 5 boot).1.1
    = Ret r ∧ Result.errors r = 2.
Proof.
  eexists _, _, _, _, _. split; [vm_compute; reflexivity|].
  edestruct (result_iff_some_success demo_cfg demo_net 8080
               "/simple" "Simple Route" 5 boot) as [_ Hsome];
    [vm_compute; reflexivity|].
  split; [apply Hsome; vm_compute; discriminate|]. reflexivity.
Defined.

(** * Further properties of the whole run *)

(** A scenario run emits only its own requests, settlements, barriers and
    output lines. *)
Section QuietRoute.
Context (cfg : config) (net : network) (port : nat) (path : string).
Context (P : event → Prop).
Hypothesis P_dispatch : ∀ i, P (Dispatch i port path).
Hypothesis P_settle : ∀ i ok, P (Settle i ok).
Hypothesis P_barrier : P Barrier.
Hypothesis P_stdout : ∀ l, P (Stdout l).

Lemma route_makeRequest : quiet P (makeRequest port path).
Proof. intros w o w' tr [= <- <- <-]. split; [done|]. by repeat constructor. Qed.

Lemma route_await r : quiet P (await net r).
Proof.
  intros w o w' tr. unfold await.
  destruct (settled _); intros [= <- <- <-]; split; try done;
    by repeat constructor.
Qed.

Lemma route_warmup : quiet P (warmup cfg net port path).
Proof.
  apply quiet_for_loop. intros _ _. apply quiet_try_catch.
  - apply quiet_bind; [apply route_makeRequest|]. intros r.
    apply quiet_bind; [apply route_await|]. intros _. apply quiet_ret.
  - intros _. apply quiet_ret.
Qed.

Lemma route_run_batch count batch t :
  quiet P (run_batch cfg net port path count batch t).
Proof.
  intros w o w' tr H. apply run_batch_shape in H. cbv zeta in H.
  destruct H as (rs & _ & _ & Hs & Hshape). split; [done|].
  assert (Forall P
            (dispatch_events port path w
               (Nat.min (CONCURRENT_REQUESTS cfg)
                        (count - batch * CONCURRENT_REQUESTS cfg)))) as Hd.
  { apply Forall_fmap, Forall_true. intros i. apply P_dispatch. }
  assert (Forall P (settle_events net rs)) as Hst.
  { apply Forall_fmap, Forall_true. intros r. apply P_settle. }
  destruct Hshape as [[_ ->]|(t' & _ & _ & ->)];
    rewrite ?Forall_app; split_and!; try done. by repeat constructor.
Qed.

Lemma route_run_batches count t : quiet P (run_batches cfg net port path count t).
Proof.
  unfold run_batches. destruct (ceil_div _ _).
  - apply quiet_for_loop. intros. apply route_run_batch.
  - apply quiet_hang.
  - apply quiet_ret.
Qed.

Lemma route_toFixed x : quiet P (toFixed x).
Proof. destruct x; [apply quiet_ret|apply quiet_throw]. Qed.

Lemma route_benchmarkRoute name count :
  quiet P (benchmarkRoute cfg net port path name count).
Proof.
  apply quiet_bind.
  - unfold measure.
    repeat first
      [ apply quiet_bind; [|intros ?]
      | apply quiet_emit; apply P_stdout
      | apply route_warmup
      | apply route_run_batches
      | apply quiet_ret
      | (intros w o w' tr [= <- <- <-]; by split) ].
  - intros [t totalTime]. unfold report.
    repeat first
      [ apply quiet_bind; [|intros ?]
      | apply quiet_emit; apply P_stdout
      | apply route_toFixed
      | apply quiet_ret ].
Qed.
End QuietRoute.

Lemma within_run_scenarios cfg net port :
  quiet (within_run port scenario_paths) (run_scenarios cfg net port).
Proof.
  unfold run_scenarios.
  repeat first
    [ apply quiet_bind;
        [apply route_benchmarkRoute;
           [intros i; split; [done|];
            unfold scenario_paths;
            repeat first [apply elem_of_cons; left; reflexivity
                         |apply elem_of_cons; right]
           |done|done|done]
        |intros ?]
    | apply quiet_ret ].
Qed.

(** Where a dispatch sits in a trace whose head and tail dispatch nothing. *)
Lemma dispatch_in_middle (h m r pre post : list event) x :
  is_dispatch x →
  Forall (λ e, ¬ is_dispatch e) h → Forall (λ e, ¬ is_dispatch e) r →
  h ++ m ++ r = pre ++ x :: post →
  ∃ m1 m2, pre = h ++ m1 ∧ m = m1 ++ x :: m2.
Proof.
  intros Hx Hh Hr. revert pre.
  induction Hh as [|a h Ha Hh IH]; intros pre Heq; cbn in Heq.
  - apply app_eq_app in Heq as [l [[-> Hl]|[-> ->]]].
    + destruct l as [|y l]; cbn in Hl.
      * subst r. by inversion Hr.
      * injection Hl as <- _. by exists pre, l.
    + exfalso. rewrite Forall_app, Forall_cons in Hr. by destruct Hr as (_ & ? & _).
  - destruct pre as [|b pre]; cbn in Heq.
    + injection Heq as -> _. done.
    + injection Heq as <- Heq. destruct (IH _ Heq) as (m1 & m2 & -> & ->).
      by exists m1, m2.
Qed.

Lemma summary_lines_no_dispatch rs :
  Forall (λ e, ¬ is_dispatch e) (summary_lines rs).
Proof.
  unfold summary_lines. apply Forall_app. split.
  - by repeat (apply Forall_cons; split; [by intros []|]).
  - apply Forall_fmap, Forall_true. by intros r [].
Qed.

(** Every request of a run goes to the port the server is bound to and to
    one of the six scenario paths, after the server started listening and
    before it is closed; a run whose server cannot bind sends nothing. *)
Theorem requests_only_while_listening cfg net p :
  (∀ pre j q path post,
     (main cfg net (Some p) boot).2 = pre ++ Dispatch j q path :: post →
     q = p ∧ path ∈ scenario_paths ∧
     ServerListen p ∈ pre ∧ ServerClose ∉ pre) ∧
  dispatched (main cfg net None boot).2 = [].
Proof.
  split; [|done].
  intros pre j q path post. unfold main. rewrite runBenchmarks_listening.
  cbv zeta.
  destruct (run_scenarios _ _ _ _) as [[o1 w1] t1] eqn:Hrun.
  apply within_run_scenarios in Hrun as [_ Ht1].
  assert (∀ rest,
            Forall (λ e, ¬ is_dispatch e) rest →
            [Stdout (Text "Express Performance Benchmark Suite");
             Stdout (ConfigLines cfg); ServerListen p; Stdout (ListeningOn p)]
            ++ t1 ++ rest = pre ++ Dispatch j q path :: post →
            q = p ∧ path ∈ scenario_paths ∧
            ServerListen p ∈ pre ∧ ServerClose ∉ pre) as Hmid.
  { intros rest Hrest Heq.
    apply dispatch_in_middle in Heq as (m1 & m2 & -> & ->);
      [|done|by repeat (apply Forall_cons; split; [by intros []|])|done].
    rewrite Forall_app, Forall_cons in Ht1. destruct Ht1 as (Hm1 & [-> Hp] & _).
    split_and!; [done..| |].
    - apply elem_of_app. left.
      do 2 apply elem_of_cons, or_intror. apply elem_of_cons. by left.
    - intros [Hin|Hin]%elem_of_app.
      + repeat (apply elem_of_cons in Hin as [Hin|Hin]; [done|]).
        by apply elem_of_nil in Hin.
      + rewrite Forall_forall in Hm1. by apply Hm1 in Hin. }
  destruct o1 as [rs|e|]; cbn [snd]; intros Heq.
  - eapply (Hmid (summary_lines rs ++ _ ++ _)); [|exact Heq].
    apply Forall_app. split; [apply summary_lines_no_dispatch|].
    by repeat (apply Forall_cons; split; [by intros []|]).
  - eapply (Hmid (_ :: _)); [|exact Heq].
    by repeat (apply Forall_cons; split; [by intros []|]).
  - eapply (Hmid []); [done|]. by rewrite app_nil_r.
Qed.

Lemma benchmarkRoute_Ret cfg net port path name count w r w' tr :
  benchmarkRoute cfg net port path name count w = (Ret r, w', tr) →
  Result.name r = name ∧ Result.count r = count.
Proof.
  unfold benchmarkRoute. intros H.
  apply bind_Ret_inv in H as ([t totalTime] & ? & ? & ? & _ & Hr & _).
  by apply report_Ret in Hr as ->.
Qed.

Lemma summary_names_app t1 t2 :
  summary_names (t1 ++ t2) = summary_names t1 ++ summary_names t2.
Proof. apply omap_app. Qed.

Lemma summary_names_scenario_events tr :
  Forall scenario_event tr → summary_names tr = [].
Proof.
  induction 1 as [|e tr He Htr IH]; [done|].
  destruct e as [| |l| | | | |]; try done. by destruct l.
Qed.

Lemma summary_names_summary_lines rs :
  summary_names (summary_lines rs) = Result.name <$> rs.
Proof.
  unfold summary_lines, summary_names. cbn.
  induction rs as [|r rs IH]; cbn; [done|]. by rewrite IH.
Qed.

(** When the six scenarios complete, their results are collected in the
    order the scenarios are written, each for BENCHMARK_REQUESTS requests,
    and the rows of the summary table are printed in that order. *)
Theorem summary_in_registration_order cfg net p rs w1 t1 :
  run_scenarios cfg net p (set_server (Listening p) boot) = (Ret rs, w1, t1) →
  Result.name <$> rs = scenario_names ∧
  Forall (λ r, Result.count r = BENCHMARK_REQUESTS cfg) rs ∧
  summary_names (main cfg net (Some p) boot).2 = scenario_names.
Proof.
  intros Hrun.
  assert (Result.name <$> rs = scenario_names ∧
          Forall (λ r, Result.count r = BENCHMARK_REQUESTS cfg) rs)
    as [Hnames Hcounts].
  { pose proof Hrun as H. unfold run_scenarios in H. cbv zeta in H.
    apply bind_Ret_inv in H
      as (r1 & ? & ? & ? & [Hn1 Hc1]%benchmarkRoute_Ret & H & _).
    apply bind_Ret_inv in H
      as (r2 & ? & ? & ? & [Hn2 Hc2]%benchmarkRoute_Ret & H & _).
    apply bind_Ret_inv in H
      as (r3 & ? & ? & ? & [Hn3 Hc3]%benchmarkRoute_Ret & H & _).
    apply bind_Ret_inv in H
      as (r4 & ? & ? & ? & [Hn4 Hc4]%benchmarkRoute_Ret & H & _).
    apply bind_Ret_inv in H
      as (r5 & ? & ? & ? & [Hn5 Hc5]%benchmarkRoute_Ret & H & _).
    apply bind_Ret_inv in H
      as (r6 & ? & ? & ? & [Hn6 Hc6]%benchmarkRoute_Ret & H & _).
    injection H as <- _ _. cbn. split.
    - by rewrite Hn1, Hn2, Hn3, Hn4, Hn5, Hn6.
    - by repeat (apply Forall_cons; split; [done|]). }
  split_and!; [done..|].
  unfold main. rewrite runBenchmarks_listening. cbv zeta. rewrite Hrun.
  cbn [snd]. apply quiet_run_scenarios in Hrun as [_ Ht1].
  rewrite !summary_names_app, (summary_names_scenario_events t1) by done.
  by rewrite summary_names_summary_lines, Hnames.
Qed.

Lemma summary_in_registration_order_witness :
  ∃ rs w1 t1,
    run_scenarios demo_cfg all_answered 8080 (set_server (Listening 8080) boot)
    = (Ret rs, w1, t1) ∧
    summary_names (main demo_cfg all_answered (Some 8080) boot).2
    = scenario_names.
Proof.
  eexists _, _, _. split; [vm_compute; reflexivity|].
  edestruct (summary_in_registration_order demo_cfg all_answered 8080)
    as (_ & _ & Hsum); [vm_compute; reflexivity|]. exact Hsum.
Defined.

(** ** The requests of a scenario *)

Section Numbering.
Context (cfg : config) (net : network).

Lemma dispatched_stdout l tr : dispatched (Stdout l :: tr) = dispatched tr.
Proof. done. Qed.

Lemma run_batches_completed port path count t w t' w' tr :
  run_batches cfg net port path count t w = (Ret t', w', tr) →
  dispatched tr = seq (issued w) count ∧ issued w' = issued w + count.
Proof.
  unfold run_batches.
  destruct (decide (CONCURRENT_REQUESTS cfg = 0)) as [H0|H0].
  - unfold ceil_div. rewrite decide_True by done.
    case_decide as Hc; [|done]. intros [= <- <- <-]. rewrite Hc. cbn.
    split; [done|lia].
  - destruct (ceil_div_spec count _ H0) as (b & -> & Hb).
    intros (Hd & Hi & _)%batches_completed. cbv zeta in Hd, Hi.
    cbn in Hd, Hi.
    replace (Nat.min count (b * CONCURRENT_REQUESTS cfg) - Nat.min count 0)
      with count in Hd, Hi by lia.
    done.
Qed.

Lemma report_trace name count m w o w' tr :
  report name count m w = (o, w', tr) → w' = w ∧ dispatched tr = [].
Proof.
  destruct m as [t totalTime]. unfold report.
  destruct (calculate_statistics (sort_times (times t)))
    as [avg [mn|] [mx|] [a|] [b|] [c|]]; cbn; by intros [= <- <- <-].
Qed.

(** A scenario run that ends (with a result or with the [TypeError]) has
    dispatched exactly WARMUP_REQUESTS + count requests, numbered
    consecutively from the number of requests issued before it. *)
Theorem scenario_requests_are_numbered port path name count w o w' tr :
  benchmarkRoute cfg net port path name count w = (o, w', tr) →
  o ≠ Hang →
  dispatched tr = seq (issued w) (WARMUP_REQUESTS cfg + count) ∧
  issued w' = issued w + (WARMUP_REQUESTS cfg + count).
Proof.
  unfold benchmarkRoute. rewrite run_bind, measure_run. cbv zeta.
  destruct (warmup cfg net port path w) as [[o1 w1] tr1] eqn:Hw.
  pose proof (warmup_run _ _ _ _ _ _ _ _ Hw) as (_ & Hthrow1 & Hret1).
  destruct o1 as [[]|e1|]; [|by destruct (Hthrow1 e1)|by intros [= <- _ _]].
  destruct (Hret1 eq_refl) as (-> & _ & Hi1 & _).
  destruct (run_batches _ _ _ _ _ _ _) as [[o2 w2] tr2] eqn:Hb.
  pose proof (run_batches_never_throw _ _ _ _ _ _ _ _ _ _ Hb) as Hthrow2.
  destruct o2 as [t|e2|]; [|by destruct (Hthrow2 e2)|by intros [= <- _ _]].
  apply run_batches_completed in Hb as [Hd2 Hi2].
  destruct (report _ _ _ _) as [[o3 w3] tr3] eqn:Hr.
  apply report_trace in Hr as [-> Hd3]. intros [= <- <- <-] _.
  rewrite !dispatched_stdout, !dispatched_app, dispatched_stdout,
    dispatched_sequential_trace, Hd3, Hd2, Hi2, Hi1, app_nil_r, seq_app.
  split; [done|lia].
Qed.
End Numbering.

Lemma scenario_requests_are_numbered_witness :
  ∃ o w' tr,
    benchmarkRoute demo_cfg demo_net 8080 "/simple" "Simple Route" 5 boot
    = (o, w', tr) ∧ o ≠ Hang ∧ dispatched tr = seq 0 7.
Proof.
  eexists _, _, _. split; [vm_compute; reflexivity|]. split; [done|].
  edestruct (scenario_requests_are_numbered demo_cfg demo_net 8080
               "/simple" "Simple Route" 5 boot) as [Hd _];
    [vm_compute; reflexivity|done|exact Hd].
Defined.

(** ** A run ends when its requests settle *)

Section Liveness.
Context (cfg : config) (net : network) (port : nat) (path : string).
Hypothesis batch_size_positive : 0 < CONCURRENT_REQUESTS cfg.

Lemma warmup_completes n : ∀ k u w,
  (∀ i, issued w ≤ i → net i ≠ []) →
  ∃ w1 tr1,
    for_loop k n (λ _ _,
      try_catch
        (makeRequest port path ≫= λ r, await net r ≫= λ _, mret ())
        (λ _, mret ())) u w = (Ret (), w1, tr1) ∧
    issued w ≤ issued w1.
Proof.
  induction n as [|n IH]; intros k u w Hall.
  - exists w, []. by destruct u.
  - rewrite for_loop_S, (warmup_step net port path k u w). cbv zeta.
    destruct (settled (net (issued w))) as [|res|err] eqn:Hp.
    + apply settled_pending in Hp. by destruct (Hall (issued w)).
    + edestruct (IH (S k) ()) as (w1 & tr1 & -> & Hle);
        [|eexists _, _; split; [done|cbn in Hle; lia]].
      intros i Hi. apply Hall. cbn in Hi. lia.
    + edestruct (IH (S k) ()) as (w1 & tr1 & -> & Hle);
        [|eexists _, _; split; [done|cbn in Hle; lia]].
      intros i Hi. apply Hall. cbn in Hi. lia.
Qed.

Lemma batches_complete count n : ∀ k t w,
  (∀ i, issued w ≤ i → net i ≠ []) →
  ∃ t' w' tr,
    for_loop k n (run_batch cfg net port path count) t w = (Ret t', w', tr).
Proof.
  induction n as [|n IH]; intros k t w Hall.
  - by exists t, w, [].
  - rewrite for_loop_S, run_batch_run. cbv zeta. rewrite await_all_run.
    cbv zeta. rewrite decide_True.
    + edestruct (IH (S k)) as (t' & w' & tr & ->); [|by eexists _, _, _].
      intros i Hi. apply Hall. rewrite issued_clock_after in Hi. cbn in Hi. lia.
    + apply Forall_forall. intros r Hr. unfold settles. apply Hall.
      apply (list_elem_of_fmap_2 id) in Hr.
      rewrite batch_requests_ids in Hr. apply elem_of_seq in Hr. cbn in Hr. lia.
Qed.

(** If every request issued from now on settles (some callback of it
    fires), the scenario run ends: [benchmarkRoute] returns or throws, it
    does not wait for ever. *)
Theorem scenario_ends_when_requests_settle name count w :
  (∀ i, issued w ≤ i → net i ≠ []) →
  (benchmarkRoute cfg net port path name count w).1.1 ≠ Hang.
Proof.
  intros Hall. unfold benchmarkRoute. rewrite run_bind, measure_run. cbv zeta.
  destruct (warmup_completes (WARMUP_REQUESTS cfg) 0 () w Hall)
    as (w1 & tr1 & Hw & Hle).
  unfold warmup. rewrite Hw. unfold run_batches.
  destruct (ceil_div_spec count (CONCURRENT_REQUESTS cfg)) as (b & -> & _);
    [lia|].
  destruct (batches_complete count b 0 {| times := []; errors := 0 |} w1)
    as (t' & w' & tr & ->).
  { intros i Hi. apply Hall. lia. }
  destruct (report _ _ _ _) as [[[r|e|] w3] tr3] eqn:Hr; cbn; [done..|].
  exfalso. revert Hr. unfold report.
  by destruct (calculate_statistics _) as [avg [mn|] [mx|] [a|] [b'|] [c|]].
Qed.
End Liveness.

Lemma scenario_ends_when_requests_settle_witness :
  0 < CONCURRENT_REQUESTS demo_cfg ∧
  (∀ i, issued boot ≤ i → demo_net i ≠ []) ∧
  (benchmarkRoute demo_cfg demo_net 8080 "/simple" "Simple Route" 5 boot).1.1
  ≠ Hang.
Proof.
  assert (∀ i, issued boot ≤ i → demo_net i ≠ []) as Hall.
  { intros i _. unfold demo_net. by destruct (Nat.even i). }
  split; [cbn; lia|]. split; [exact Hall|].
  apply (scenario_ends_when_requests_settle demo_cfg demo_net 8080 "/simple");
    [cbn; lia|exact Hall].
Defined.

(** ** The measured total time *)

Section TotalTime.
Context (cfg : config) (net : network).
Hypothesis time_moves_forward : forward net.

#[local] Instance earlier_trans : Transitive (earlier net).
Proof. intros r1 r2 r3. unfold earlier. apply Qcle_trans. Qed.

#[local] Instance earlier_total : Total (earlier net).
Proof.
  intros r1 r2. unfold earlier.
  destruct (Qclt_le_dec (settle_time net r2) (settle_time net r1)) as [H|H].
  - right. by apply Qclt_le_weak.
  - by left.
Qed.

Lemma settling_order_sorted promises :
  StronglySorted (earlier net) (settling_order net promises).
Proof. apply (StronglySorted_merge_sort (earlier net)). Qed.

Lemma clock_after_snoc rs r w :
  now (clock_after net (rs ++ [r]) w) = settle_time net r.
Proof. unfold clock_after. by rewrite foldl_app. Qed.

Lemma StronglySorted_snoc_inv {A} (R : relation A) l z :
  StronglySorted R (l ++ [z]) → Forall (λ x, R x z) l.
Proof.
  induction l as [|x l IH]; cbn; [done|].
  intros H. inversion_clear H as [|?? Hl Hx]. constructor; [|by apply IH].
  rewrite Forall_app, Forall_singleton in Hx. by destruct Hx.
Qed.

(** The samples added by the promises [rs], all started at [s]. *)
Lemma tally_after_samples rs : ∀ t x,
  x ∈ times (tally_after net rs t) →
  x ∈ times t ∨ ∃ r f fa, r ∈ rs ∧ net (id r) = f :: fa ∧ x = at_ms f.
Proof.
  unfold tally_after.
  induction rs as [|r rs IH]; intros t x Hx; cbn in Hx; [by left|].
  apply IH in Hx as [Hx|(r' & f & fa & Hr' & Hnet & ->)].
  - destruct (net (id r)) as [|f fa] eqn:Hnet; [by left|].
    rewrite contribute_cons in Hx.
    destruct (which f); cbn in Hx; try by left.
    apply elem_of_app in Hx as [Hx|Hx]; [by left|].
    apply list_elem_of_singleton in Hx as ->. right.
    exists r, f, fa. split; [apply elem_of_cons; by left|done].
  - right. exists r', f, fa. split; [apply elem_of_cons; by right|done].
Qed.

(** One completed batch keeps every sample within the time elapsed since
    [startTime], and does not turn the clock back. *)
Lemma run_batch_clock port path count batch t w t' w' tr (startTime : Qc) :
  run_batch cfg net port path count batch t w = (Ret t', w', tr) →
  (startTime <= now w)%Qc →
  (∀ x, x ∈ times t → (0 <= x)%Qc ∧ (startTime + x <= now w)%Qc) →
  (startTime <= now w')%Qc ∧
  (∀ x, x ∈ times t' → (0 <= x)%Qc ∧ (startTime + x <= now w')%Qc).
Proof.
  rewrite run_batch_run. cbv zeta. rewrite await_all_run. cbv zeta.
  set (bc := Nat.min _ _). set (promises := batch_requests w bc).
  case_decide as Hall; [|done]. intros [= <- <- <-] Hstart Hinv.
  set (rs := settling_order net promises).
  assert (∀ r, r ∈ rs → start r = now w) as Hstarts.
  { intros r Hr. unfold rs in Hr. rewrite settling_order_all in Hr by done.
    unfold promises, batch_requests in Hr.
    apply list_elem_of_fmap in Hr as (i & -> & _). done. }
  assert (∀ r f fa, r ∈ rs → net (id r) = f :: fa →
                    settle_time net r = (now w + at_ms f)%Qc) as Hsettle.
  { intros r f fa Hr Hnet. unfold settle_time. by rewrite Hnet, Hstarts. }
  pose proof (settling_order_sorted promises) as Hsorted. fold rs in Hsorted.
  assert (now w <= now (clock_after net rs (set_issued (issued w + bc) w)) ∧
          ∀ r, r ∈ rs →
               settle_time net r
               <= now (clock_after net rs (set_issued (issued w + bc) w)))%Qc
    as [Hmono Hlast].
  { destruct (decide (rs = [])) as [->|Hne]; [split; [apply Qcle_refl|]|].
    { intros r Hr. by apply elem_of_nil in Hr. }
    destruct (exists_last Hne) as (rs' & z & Hrs). rewrite Hrs in Hsorted |- *.
    rewrite clock_after_snoc. apply StronglySorted_snoc_inv in Hsorted.
    assert (z ∈ rs) as Hz by (rewrite Hrs; apply elem_of_app; right;
                              apply elem_of_cons; by left).
    assert (settles net z) as Hzs.
    { unfold rs in Hz. rewrite settling_order_all in Hz by done.
      rewrite Forall_forall in Hall. by apply Hall. }
    unfold settles in Hzs. destruct (net (id z)) as [|f fa] eqn:Hnetz; [done|].
    split.
    - rewrite (Hsettle z f fa Hz Hnetz).
      rewrite <- (Qcplus_0_r (now w)) at 1. apply Qcplus_le_mono_l.
      by eapply time_moves_forward.
    - intros r [Hr|Hr]%elem_of_app.
      + rewrite Forall_forall in Hsorted. by apply Hsorted.
      + apply list_elem_of_singleton in Hr as ->. apply Qcle_refl. }
  split; [by etrans|].
  intros x [Hx|(r & f & fa & Hr & Hnet & ->)]%tally_after_samples.
  - destruct (Hinv x Hx) as [H0 Hle]. split; [done|by etrans].
  - split; [by eapply time_moves_forward|].
    etrans; [|apply (Hlast r Hr)]. rewrite (Hsettle r f fa Hr Hnet).
    by apply Qcplus_le_mono_r.
Qed.

Lemma batches_clock port path count n (startTime : Qc) : ∀ k t w t' w' tr,
  for_loop k n (run_batch cfg net port path count) t w = (Ret t', w', tr) →
  (startTime <= now w)%Qc →
  (∀ x, x ∈ times t → (0 <= x)%Qc ∧ (startTime + x <= now w)%Qc) →
  (startTime <= now w')%Qc ∧
  (∀ x, x ∈ times t' → (0 <= x)%Qc ∧ (startTime + x <= now w')%Qc).
Proof.
  induction n as [|n IH]; intros k t w t' w' tr.
  - cbn. by intros [= <- <- <-].
  - rewrite for_loop_S.
    destruct (run_batch _ _ _ _ _ _ _ _) as [[[t1| |] w1] tr1] eqn:Hb;
      [|done..].
    destruct (for_loop _ _ _ _ _) as [[o2 w2] tr2] eqn:Hl.
    intros [= -> <- <-] Hstart Hinv.
    destruct (run_batch_clock _ _ _ _ _ _ _ _ _ _ Hb Hstart Hinv) as [H1 H2].
    by eapply IH.
Qed.

(** On a network where time moves forward, the measured total time is not
    negative and is at least the latency of every collected sample. *)
Theorem total_time_covers_every_sample
    port path name count w t totalTime w1 tr1 :
  measure cfg net port path name count w = (Ret (t, totalTime), w1, tr1) →
  (0 <= totalTime)%Qc ∧
  ∀ x, x ∈ times t → (0 <= x)%Qc ∧ (x <= totalTime)%Qc.
Proof.
  intros (w0 & tr2 & Hrun & ->)%measure_Ret.
  assert ((now w0 <= now w1)%Qc ∧
          ∀ x, x ∈ times t → (0 <= x)%Qc ∧ (now w0 + x <= now w1)%Qc)
    as [Hmono Hinv].
  { revert Hrun. unfold run_batches. destruct (ceil_div _ _) as [b| |].
    - intros Hloop. eapply batches_clock; [done|apply Qcle_refl|].
      intros x Hx. by apply elem_of_nil in Hx.
    - done.
    - intros [= <- <- _]. split; [apply Qcle_refl|].
      intros x Hx. by apply elem_of_nil in Hx. }
  split.
  - apply (Qcplus_le_mono_r _ _ (now w0)).
    replace (now w1 - now w0 + now w0)%Qc with (now w1) by ring.
    by rewrite Qcplus_0_l.
  - intros x Hx. destruct (Hinv x Hx) as [H0 Hle]. split; [done|].
    apply (Qcplus_le_mono_r _ _ (now w0)).
    replace (now w1 - now w0 + now w0)%Qc with (now w1) by ring.
    by rewrite Qcplus_comm.
Qed.
End TotalTime.

Lemma of_nat_nonneg n : (0 <= of_nat n)%Qc.
Proof. rewrite of_nat_Qc_of_Z, <- Z2Qc_inj_0, <- Z2Qc_inj_le. lia. Qed.

Lemma forward_demo_net : forward demo_net.
Proof.
  intros i f fa. unfold demo_net, answered, timed_out.
  destruct (Nat.even i); intros [= <- _]; apply of_nat_nonneg.
Qed.

Lemma total_time_covers_every_sample_witness :
  ∃ t totalTime w1 tr1,
    forward demo_net ∧
    measure demo_cfg demo_net 8080 "/simple" "Simple Route" 5 boot
    = (Ret (t, totalTime), w1, tr1) ∧
    (0 <= totalTime)%Qc ∧
    ∀ x, x ∈ times t → (0 <= x)%Qc ∧ (x <= totalTime)%Qc.
Proof.
  eexists _, _, _, _. split; [exact forward_demo_net|].
  split; [vm_compute; reflexivity|].
  eapply (total_time_covers_every_sample demo_cfg demo_net forward_demo_net
            8080 "/simple" "Simple Route" 5 boot).
  vm_compute. reflexivity.
Defined.

(** * Further properties of requests *)

(** The promise of [makeRequest] is decided by the first callback that
    fires, and so is what the request adds to the tally: a response end
    gives a latency sample whatever its status code, an error or a timeout
    gives one error; callbacks that fire later change nothing. *)
Theorem first_callback_decides (f : firing) (fa : fate) (t : tally) :
  settled (f :: fa) =
    match which f with
    | ResEnd sc => Fulfilled {| time := at_ms f; statusCode := sc |}
    | ReqError code => Rejected (TransportError code)
    | ReqTimeout => Rejected RequestTimeout
    end ∧
  contribute (f :: fa) t =
    match which f with
    | ResEnd _ => {| times := times t ++ [at_ms f]; errors := errors t |}
    | _ => {| times := times t; errors := S (errors t) |}
    end.
Proof.
  split; [|apply contribute_cons].
  rewrite settled_cons. by destruct f as [a []].
Qed.

(** A returned result always contains at least one success: its error
    count is smaller than its request count. *)
Theorem result_has_a_success cfg net port path name count w r w' tr :
  benchmarkRoute cfg net port path name count w = (Ret r, w', tr) →
  Result.errors r < Result.count r.
Proof.
  intros Hrun.
  apply benchmarkRoute_inv in Hrun
    as (t & totalTime & w1 & tr1 & tr2 & Hm & Hr).
  pose proof (report_Ret_some_sample _ _ _ _ _ _ _ _ Hr) as Hsome.
  apply report_Ret in Hr as ->. apply measure_accounted in Hm. cbn.
  destruct (times t); [done|]. cbn in Hm. lia.
Qed.

Lemma result_has_a_success_witness :
  ∃ r w' tr,
    benchmarkRoute demo_cfg demo_net 8080 "/simple" "Simple Route" 5 boot
    = (Ret r, w', tr) ∧ Result.errors r < Result.count r.
Proof.
  eexists _, _, _. split; [vm_compute; reflexivity|].
  eapply (result_has_a_success demo_cfg demo_net 8080
            "/simple" "Simple Route" 5 boot).
  vm_compute. reflexivity.
Defined.

(** ** The order in which the promises of a batch settle *)

Section SettlingOrder.
Context (net : network).

(** What one request adds, apart from the tally it is added to. *)
Lemma contribute_split fa t :
  times (contribute fa t)
    = times t ++ times (contribute fa {| times := []; errors := 0 |}) ∧
  errors (contribute fa t)
    = errors t + errors (contribute fa {| times := []; errors := 0 |}).
Proof.
  destruct fa as [|f fa].
  - rewrite !contribute_nil. cbn. by rewrite app_nil_r, Nat.add_0_r.
  - rewrite !contribute_cons. destruct (which f); cbn;
      rewrite ?app_nil_r; split; (done || lia).
Qed.

Lemma tally_after_cons r rs t :
  tally_after net (r :: rs) t = tally_after net rs (contribute (net (id r)) t).
Proof. done. Qed.

Lemma tally_after_swap r1 r2 rs : ∀ t,
  times (tally_after net rs (contribute (net (id r2)) (contribute (net (id r1)) t)))
  ≡ₚ times (tally_after net rs (contribute (net (id r1)) (contribute (net (id r2)) t))) ∧
  errors (tally_after net rs (contribute (net (id r2)) (contribute (net (id r1)) t)))
  = errors (tally_after net rs (contribute (net (id r1)) (contribute (net (id r2)) t))).
Proof.
  assert (∀ rs t1 t2,
            times t1 ≡ₚ times t2 → errors t1 = errors t2 →
            times (tally_after net rs t1) ≡ₚ times (tally_after net rs t2) ∧
            errors (tally_after net rs t1) = errors (tally_after net rs t2))
    as Hcong.
  { clear. induction rs as [|r rs IH]; intros t1 t2 Ht He; [done|].
    rewrite !tally_after_cons. apply IH.
    - destruct (contribute_split (net (id r)) t1) as [-> _].
      destruct (contribute_split (net (id r)) t2) as [-> _]. by rewrite Ht.
    - destruct (contribute_split (net (id r)) t1) as [_ ->].
      destruct (contribute_split (net (id r)) t2) as [_ ->]. by rewrite He. }
  intros t. apply Hcong.
  - destruct (contribute_split (net (id r2)) (contribute (net (id r1)) t))
      as [-> _].
    destruct (contribute_split (net (id r1)) (contribute (net (id r2)) t))
      as [-> _].
    destruct (contribute_split (net (id r1)) t) as [-> _].
    destruct (contribute_split (net (id r2)) t) as [-> _].
    rewrite <- !app_assoc. apply Permutation_app_head, Permutation_app_comm.
  - destruct (contribute_split (net (id r2)) (contribute (net (id r1)) t))
      as [_ ->].
    destruct (contribute_split (net (id r1)) (contribute (net (id r2)) t))
      as [_ ->].
    destruct (contribute_split (net (id r1)) t) as [_ ->].
    destruct (contribute_split (net (id r2)) t) as [_ ->]. lia.
Qed.

Lemma tally_after_perm rs rs' :
  rs ≡ₚ rs' → ∀ t,
  times (tally_after net rs t) ≡ₚ times (tally_after net rs' t) ∧
  errors (tally_after net rs t) = errors (tally_after net rs' t).
Proof.
  induction 1 as [|r rs rs' Hp IH|r1 r2 rs|rs1 rs2 rs3 H12 IH12 H23 IH23];
    intros t.
  - done.
  - rewrite !tally_after_cons. apply IH.
  - rewrite !tally_after_cons. apply tally_after_swap.
  - destruct (IH12 t) as [P1 E1]. destruct (IH23 t) as [P2 E2].
    split; [by etrans|congruence].
Qed.

(** The statistics do not depend on the order in which the promises of a
    batch settle: whatever the order of their reactions, the error count
    and the sorted latencies, hence all latency statistics, are the same. *)
Theorem statistics_ignore_settling_order rs rs' t w :
  rs ≡ₚ rs' →
  ∃ t1 t2 w1 w2 tr1 tr2,
    react_all net rs t w = (Ret t1, w1, tr1) ∧
    react_all net rs' t w = (Ret t2, w2, tr2) ∧
    errors t1 = errors t2 ∧
    sort_times (times t1) = sort_times (times t2) ∧
    calculate_statistics (sort_times (times t1))
    = calculate_statistics (sort_times (times t2)).
Proof.
  intros Hperm. rewrite !react_all_run. eexists _, _, _, _, _, _.
  split; [done|]. split; [done|].
  destruct (tally_after_perm rs rs' Hperm t) as [Hp He].
  assert (sort_times (times (tally_after net rs t))
          = sort_times (times (tally_after net rs' t))) as Hs.
  { apply (Sorted_unique Qcle); [apply sort_times_sorted..|].
    by rewrite !sort_times_perm. }
  split; [done|]. split; [done|]. by rewrite Hs.
Qed.
End SettlingOrder.

Lemma statistics_ignore_settling_order_witness :
  let r0 := {| id := 0; start := Q2Qc 0 |} in
  let r1 := {| id := 1; start := Q2Qc 0 |} in
  let r2 := {| id := 2; start := Q2Qc 0 |} in
  [r0; r1; r2] ≡ₚ [r2; r0; r1] ∧
  ∃ t1 t2 w1 w2 tr1 tr2,
    react_all demo_net [r0; r1; r2] {| times := []; errors := 0 |} boot
    = (Ret t1, w1, tr1) ∧
    react_all demo_net [r2; r0; r1] {| times := []; errors := 0 |} boot
    = (Ret t2, w2, tr2) ∧
    errors t1 = errors t2 ∧
    sort_times (times t1) = sort_times (times t2) ∧
    calculate_statistics (sort_times (times t1))
    = calculate_statistics (sort_times (times t2)).
Proof.
  assert ([ {| id := 0; start := Q2Qc 0 |}; {| id := 1; start := Q2Qc 0 |};
            {| id := 2; start := Q2Qc 0 |} ]
          ≡ₚ [ {| id := 2; start := Q2Qc 0 |}; {| id := 0; start := Q2Qc 0 |};
               {| id := 1; start := Q2Qc 0 |} ]) as Hperm.
  { apply (Permutation_app_comm [_; _] [_]). }
  split; [exact Hperm|].
  apply (statistics_ignore_settling_order demo_net _ _ _ boot Hperm).
Defined.

(** ** Throughput *)

Lemma of_nat_1000_pos : (0 < of_nat 1000)%Qc.
Proof. apply of_nat_pos. lia. Qed.

(** The throughput of a returned result is count / totalTime * 1000 when
    the measured time is not zero and Infinity when it is zero; it is never
    NaN, because a returned result has count >= 1. *)
Theorem throughput_of_result cfg net port path name count w r w' tr :
  benchmarkRoute cfg net port path name count w = (Ret r, w', tr) →
  Result.reqPerSec r =
    if decide (Result.totalTime r = 0%Qc) then PosInf
    else Num (of_nat count / Result.totalTime r * of_nat 1000)%Qc.
Proof.
  intros Hrun.
  apply benchmarkRoute_inv in Hrun
    as (t & totalTime & w1 & tr1 & tr2 & Hm & Hr).
  pose proof (report_Ret_some_sample _ _ _ _ _ _ _ _ Hr) as Hsome.
  apply measure_accounted in Hm.
  assert (0 < count) as Hpos.
  { destruct (times t); [done|]. cbn in Hm. lia. }
  apply report_Ret in Hr as ->. cbn [Result.reqPerSec Result.totalTime].
  unfold js_div. case_decide as Hz; [|done].
  pose proof (of_nat_pos count Hpos) as Hcpos.
  rewrite decide_False by (intros Heq; rewrite Heq in Hcpos;
                           by apply Qclt_not_eq in Hcpos).
  rewrite decide_True by done. cbn [js_mul].
  pose proof of_nat_1000_pos as Hk.
  rewrite decide_False by (intros Heq; rewrite Heq in Hk;
                           by apply Qclt_not_eq in Hk).
  by rewrite decide_True.
Qed.

Lemma throughput_of_result_witness :
  ∃ r w' tr,
    benchmarkRoute demo_cfg demo_net 8080 "/simple" "Simple Route" 5 boot
    = (Ret r, w', tr) ∧
    Result.reqPerSec r =
      if decide (Result.totalTime r = 0%Qc) then PosInf
      else Num (of_nat 5 / Result.totalTime r * of_nat 1000)%Qc.
Proof.
  eexists _, _, _. split; [vm_compute; reflexivity|].
  eapply (throughput_of_result demo_cfg demo_net 8080
            "/simple" "Simple Route" 5 boot).
  vm_compute. reflexivity.
Defined.
